(** * Release-note monitor: scoring, watermark diff and fetch primitives

    A shallow embedding of the monitor's core pipeline
      - [lib/scorer.js]   rule-based severity scoring,
      - [lib/cache.js]    the watermark store (diff and snapshot),
      - [lib/fetchers.js] the retrieval primitive and the feed parser,
    followed by the properties of these functions.

    Conventions of the embedding.
      - A JavaScript string is a [string]; its characters are read as ASCII
        code units.  Case mapping, white space and the word characters of
        regular expressions are the ASCII ones (the keyword tables and all
        patterns of the program are ASCII).
      - A plain object used as a dictionary is a [gmap string _]; reading a
        key goes through [Object.prototype] where the program reads an
        object created by a literal.
      - A regular expression literal is written as its syntax tree
        ([RegExp.regex]); a pattern assembled at run time goes through
        [RegExp.compile].
      - Readings of the clock and the outcome of network requests are
        arguments of the functions that use them. *)

From Stdlib Require Import Ascii String NArith ZArith Bool Lia.
From stdpp Require Import base option list gmap strings.

Set Warnings "-clear-no-such-hyp".
Set Default Proof Using "Type".

(** stdpp freezes [String.append] under [simpl]; the proofs below unfold it
    on constructors. *)
#[global] Arguments String.append : simpl nomatch.

Local Open Scope list_scope.

(* ===================================================================== *)
(** * JavaScript strings *)
(* ===================================================================== *)

Module JsString.

Definition code (c : ascii) : N := N_of_ascii c.

Definition between (lo hi : N) (c : ascii) : bool :=
  ((lo <=? code c) && (code c <=? hi))%N.

Definition isUpper : ascii -> bool := between 65 90.
Definition isLower : ascii -> bool := between 97 122.
Definition isDigit : ascii -> bool := between 48 57.

Definition toLowerChar (c : ascii) : ascii :=
  if isUpper c then ascii_of_N (code c + 32) else c.

Definition toUpperChar (c : ascii) : ascii :=
  if isLower c then ascii_of_N (code c - 32) else c.

Fixpoint mapChars (f : ascii -> ascii) (s : string) : string :=
  match s with
  | EmptyString => EmptyString
  | String c s' => String (f c) (mapChars f s')
  end.

(** [s.toLowerCase()] *)
Definition toLowerCase : string -> string := mapChars toLowerChar.

(** [s.startsWith(p)] *)
Fixpoint startsWith (p s : string) : bool :=
  match p, s with
  | EmptyString, _ => true
  | String a p', String b s' => Ascii.eqb a b && startsWith p' s'
  | String _ _, EmptyString => false
  end.

(** [s.includes(p)] *)
Fixpoint includes (s p : string) : bool :=
  startsWith p s
  || match s with
     | EmptyString => false
     | String _ s' => includes s' p
     end.

(** [s.substring(0, n)] *)
Fixpoint firstChars (n : nat) (s : string) : string :=
  match n, s with
  | S n', String c s' => String c (firstChars n' s')
  | _, _ => EmptyString
  end.

Fixpoint reverseOnto (s acc : string) : string :=
  match s with
  | EmptyString => acc
  | String c s' => reverseOnto s' (String c acc)
  end.

(** WhiteSpace and LineTerminator code units below 128. *)
Definition isSpace (c : ascii) : bool :=
  between 9 13 c || Ascii.eqb c " ".

Fixpoint trimStart (s : string) : string :=
  match s with
  | String c s' => if isSpace c then trimStart s' else s
  | EmptyString => EmptyString
  end.

(** [s.trim()] *)
Definition trim (s : string) : string :=
  reverseOnto (trimStart (reverseOnto (trimStart s) EmptyString)) EmptyString.

(** Truthiness of a string value: only the empty string is falsy. *)
Definition truthy (s : string) : bool :=
  match s with
  | EmptyString => false
  | String _ _ => true
  end.

(** The last character of [s], or [prev] when [s] is empty. *)
Fixpoint lastFrom (prev : option ascii) (s : string) : option ascii :=
  match s with
  | EmptyString => prev
  | String c s' => lastFrom (Some c) s'
  end.

Definition lastChar : string -> option ascii := lastFrom None.

Definition firstChar (s : string) : option ascii :=
  match s with
  | String c _ => Some c
  | EmptyString => None
  end.

Fixpoint allChars (f : ascii -> bool) (s : string) : bool :=
  match s with
  | EmptyString => true
  | String c s' => f c && allChars f s'
  end.

Fixpoint contains (c : ascii) (s : string) : bool :=
  match s with
  | EmptyString => false
  | String d s' => Ascii.eqb c d || contains c s'
  end.

End JsString.

(* ===================================================================== *)
(** * Regular expressions

    The fragment of ECMAScript regular expressions the program uses: a
    sequence of assertions and of quantified one-character matchers, with
    at most one capturing group, matched by backtracking in the priority
    order of the language (greedy quantifiers try the longest repetition
    first, lazy ones the shortest). *)
(* ===================================================================== *)

Module RegExp.
Import JsString.

Inductive charset : Type :=
| CsChar (c : ascii)                               (* a pattern character *)
| CsAny                                            (* [\s\S] *)
| CsDigit                                          (* \d *)
| CsClass (invert : bool) (ranges : list (ascii * ascii)). (* [...] and [^...] *)

Inductive quant : Type := One | Opt | Star | Plus | LazyStar.

Inductive node : Type :=
| NBegin                                           (* ^ *)
| NWordBoundary                                    (* \b *)
| NRep (capture : bool) (q : quant) (cs : charset).

Record regex : Type := mkRegex {
  nodes : list node;
  ignoreCase : bool;    (* flag i *)
  global : bool         (* flag g *)
}.

(** The characters of a literal part of a pattern. *)
Fixpoint lit (s : string) : list node :=
  match s with
  | EmptyString => []
  | String c s' => NRep false One (CsChar c) :: lit s'
  end.

(** WordCharacters without the [u] flag: [A-Za-z0-9_]. *)
Definition isWordChar (c : ascii) : bool :=
  isLower c || isUpper c || isDigit c || Ascii.eqb c "_".

Definition wordAt (o : option ascii) : bool :=
  match o with
  | Some c => isWordChar c
  | None => false
  end.

(** Canonicalize of the language, for a pattern without the [u] flag. *)
Definition canonicalize (ic : bool) (c : ascii) : ascii :=
  if ic then toUpperChar c else c.

Definition inRanges (rs : list (ascii * ascii)) (c : ascii) : bool :=
  existsb (fun r => between (code (fst r)) (code (snd r)) c) rs.

Definition csMatch (ic : bool) (cs : charset) (c : ascii) : bool :=
  match cs with
  | CsChar ch => Ascii.eqb (canonicalize ic ch) (canonicalize ic c)
  | CsAny => true
  | CsDigit => isDigit c
  | CsClass invert rs =>
      xorb invert
        (inRanges rs c
         || (ic && (inRanges rs (toUpperChar c) || inRanges rs (toLowerChar c))))
  end.

(** The text consumed between two positions of the same string. *)
Definition consumed (from to : string) : string :=
  firstChars (String.length from - String.length to) from.

Section Matcher.
Variable ic : bool.
Variable cs : charset.
(** what follows the repetition: previous character, rest of the input *)
Variable k : option ascii -> string -> option (option string * string).

Fixpoint greedy (prev : option ascii) (s : string)
  : option (option string * string) :=
  match s with
  | String c s' =>
      if csMatch ic cs c then
        match greedy (Some c) s' with
        | Some r => Some r
        | None => k prev s
        end
      else k prev s
  | EmptyString => k prev s
  end.

Fixpoint lazy (prev : option ascii) (s : string)
  : option (option string * string) :=
  match k prev s with
  | Some r => Some r
  | None =>
      match s with
      | String c s' => if csMatch ic cs c then lazy (Some c) s' else None
      | EmptyString => None
      end
  end.

Definition rep (q : quant) (prev : option ascii) (s : string)
  : option (option string * string) :=
  match q with
  | One =>
      match s with
      | String c s' => if csMatch ic cs c then k (Some c) s' else None
      | EmptyString => None
      end
  | Opt =>
      match s with
      | String c s' =>
          if csMatch ic cs c then
            match k (Some c) s' with
            | Some r => Some r
            | None => k prev s
            end
          else k prev s
      | EmptyString => k prev s
      end
  | Star => greedy prev s
  | Plus =>
      match s with
      | String c s' => if csMatch ic cs c then greedy (Some c) s' else None
      | EmptyString => None
      end
  | LazyStar => lazy prev s
  end.
End Matcher.

(** [matchNodes ic ns cap prev s]: match the sequence [ns] at the position
    whose previous character is [prev] and whose remaining input is [s];
    the result is the capture and the input left after the match. *)
Fixpoint matchNodes (ic : bool) (ns : list node) (cap : option string)
    (prev : option ascii) (s : string) : option (option string * string) :=
  match ns with
  | [] => Some (cap, s)
  | NBegin :: ns' =>
      match prev with
      | None => matchNodes ic ns' cap prev s
      | Some _ => None
      end
  | NWordBoundary :: ns' =>
      if xorb (wordAt prev) (wordAt (firstChar s))
      then matchNodes ic ns' cap prev s
      else None
  | NRep capture q cs :: ns' =>
      rep ic cs
        (fun prev' s' =>
           matchNodes ic ns'
             (if capture then Some (consumed s s') else cap) prev' s')
        q prev s
  end.

Record found : Type := mkFound {
  skipped : string;          (* input before the match *)
  matched : string;          (* the match, [m[0]] *)
  group1 : option string;    (* the capture, [m[1]] *)
  rest : string;             (* input after the match *)
  before : option ascii      (* last character before [rest] *)
}.

Definition skipChar (c : ascii) (m : found) : found :=
  mkFound (String c (skipped m)) (matched m) (group1 m) (rest m) (before m).

(** Leftmost match at or after the current position. *)
Fixpoint search (ic : bool) (ns : list node) (prev : option ascii)
    (s : string) : option found :=
  match matchNodes ic ns None prev s with
  | Some (cap, r) =>
      Some (mkFound EmptyString (consumed s r) cap r
              (lastFrom prev (consumed s r)))
  | None =>
      match s with
      | String c s' => skipChar c <$> search ic ns (Some c) s'
      | EmptyString => None
      end
  end.

(** [re.exec(s)] for a regular expression whose [lastIndex] is 0. *)
Definition exec (re : regex) (s : string) : option found :=
  search (ignoreCase re) (nodes re) None s.

(** [re.test(s)] for a regular expression whose [lastIndex] is 0. *)
Definition test (re : regex) (s : string) : bool :=
  match exec re s with
  | Some _ => true
  | None => false
  end.

(** ** Patterns assembled at run time

    [compile] reads the source text of a pattern made of pattern
    characters, identity escapes of syntax characters and [\b].  Any other
    construct is outside the fragment read here and gives [None]. *)

Definition syntaxCharacters : string := "^$\.*+?()[]{}|".

Definition isSyntaxChar (c : ascii) : bool := contains c syntaxCharacters.

Fixpoint parse (p : string) : option (list node) :=
  match p with
  | EmptyString => Some []
  | String c p' =>
      if Ascii.eqb c "\" then
        match p' with
        | String e p'' =>
            if Ascii.eqb e "b" then (NWordBoundary ::.) <$> parse p''
            else if isSyntaxChar e
                 then (NRep false One (CsChar e) ::.) <$> parse p''
                 else None
        | EmptyString => None
        end
      else if isSyntaxChar c then None
      else (NRep false One (CsChar c) ::.) <$> parse p'
  end.

(** [new RegExp(pattern, flags)] *)
Definition compile (pattern : string) (i g : bool) : option regex :=
  (fun ns => mkRegex ns i g) <$> parse pattern.

End RegExp.


(* ===================================================================== *)
(** * Data model *)
(* ===================================================================== *)

Inductive Severity : Type := critical | high | medium | low.

#[global] Instance Severity_eq_dec : EqDecision Severity.
Proof. solve_decision. Defined.

(** A normalized item, as the fetchers build it ([rawData] is not read by
    the functions embedded here). *)
Record Item : Type := mkItem {
  id : string;
  title : string;
  url : string;
  description : string;
  publishedAt : Z;
  source : string;
  version : option string;     (* set by the release variant only *)
  prerelease : bool            (* an absent flag is falsy *)
}.

(** A source descriptor of the configuration. *)
Record Source : Type := mkSource {
  sourceId : string;
  name : string;
  category : string;
  sourceUrl : string;
  sourceFilter : option string;
  severityHint : option Severity
}.

(** A scored item: the item with the fields [scoreAllItems] attaches. *)
Record ScoredItem : Type := mkScoredItem {
  item : Item;
  itemSeverity : Severity;
  severityScore : Z;
  severityReasons : list string;
  itemCategory : string;
  sourceName : string
}.

(* ===================================================================== *)
(** * lib/scorer.js *)
(* ===================================================================== *)

Module Scorer.
Import JsString.

Definition CRITICAL_KEYWORDS : list string :=
  [ "security vulnerability";
    "security issue";
    "vulnerability";
    "cve-";
    "remote code execution";
    "certificate expir";
    "service disruption";
    "outage";
    "forced upgrade";
    "end-of-life";
    "eol imminent";
    "critical security";
    "zero-day";
    "exploit";
    "malicious";
    "data breach";
    "unauthorized access" ].

Definition HIGH_KEYWORDS : list string :=
  [ "breaking change";
    "breaking:";
    "deprecated";
    "deprecation";
    "removal";
    "removed";
    "required action";
    "action required";
    "must upgrade";
    "must update";
    "major version";
    "api removal";
    "pricing change";
    "price increase";
    "end of support";
    "migration required";
    "incompatible";
    "required update";
    "urgent" ].

Definition MEDIUM_KEYWORDS : list string :=
  [ "minor version";
    "new feature";
    "enhancement";
    "improvement";
    "performance";
    "bug fix";
    "known issue";
    "workaround";
    "recommended update";
    "update available";
    "patch";
    "maintenance" ].

Definition LOW_KEYWORDS : list string :=
  [ "documentation";
    "informational";
    "announce";
    "note";
    "preview";
    "beta";
    "alpha" ].

(** [/[-:]/] *)
Definition hyphenOrColon : RegExp.regex :=
  RegExp.mkRegex
    [RegExp.NRep false RegExp.One
       (RegExp.CsClass false [("-"%char, "-"%char); (":"%char, ":"%char)])]
    false false.

(** [s.replace(/[.*+?^${}()|[\]\\]/g, '\\$&')]: every character of the
    class is replaced by a backslash followed by itself. *)
Fixpoint escapeRegExp (s : string) : string :=
  match s with
  | EmptyString => EmptyString
  | String c s' =>
      if contains c ".*+?^${}()|[]\"
      then String "\" (String c (escapeRegExp s'))
      else String c (escapeRegExp s')
  end.

(** [matchKeyword(text, keyword)].  The result is [None] only if the pattern
    handed to [new RegExp] left the fragment of [RegExp.compile]; see
    [matchKeyword_defined]. *)
Definition matchKeyword (text keyword : string) : option bool :=
  let lowerKeyword := toLowerCase keyword in
  if RegExp.test hyphenOrColon lowerKeyword then
    Some (includes text lowerKeyword)
  else
    regex ← RegExp.compile ("\b" +:+ escapeRegExp lowerKeyword +:+ "\b") true false;
    Some (RegExp.test regex text).

(** [KEYWORDS.forEach(keyword => { if (matchKeyword(text, keyword)) matches.push(keyword) })] *)
Fixpoint matching (text : string) (keywords : list string) : option (list string) :=
  match keywords with
  | [] => Some []
  | keyword :: more =>
      hit ← matchKeyword text keyword;
      found ← matching text more;
      Some (if hit : bool then keyword :: found else found)
  end.

Record Matches : Type := mkMatches {
  m_critical : list string;
  m_high : list string;
  m_medium : list string;
  m_low : list string
}.

Definition itemText (item : Item) : string :=
  toLowerCase (title item +:+ " " +:+ description item).

(** Lines 104-138: the four keyword passes. *)
Definition collectMatches (item : Item) : option Matches :=
  let text := itemText item in
  c ← matching text CRITICAL_KEYWORDS;
  h ← matching text HIGH_KEYWORDS;
  m ← matching text MEDIUM_KEYWORDS;
  l ← matching text LOW_KEYWORDS;
  Some (mkMatches c h m l).

Definition nonEmpty {A} (l : list A) : bool :=
  match l with
  | [] => false
  | _ :: _ => true
  end.

(** Lines 140-160: severity and reasons before the adjustments. *)
Definition baseSeverity (matches : Matches) (source : Source)
  : Severity * list string :=
  if nonEmpty (m_critical matches) then (critical, m_critical matches)
  else if nonEmpty (m_high matches) then (high, m_high matches)
  else if nonEmpty (m_medium matches) then (medium, m_medium matches)
  else if nonEmpty (m_low matches) then (low, m_low matches)
  else (default low (severityHint source), ["default from source"]).

(** [/^v?(\d+)\.0\.0/] *)
Definition majorVersionRegex : RegExp.regex :=
  RegExp.mkRegex
    ([RegExp.NBegin;
      RegExp.NRep false RegExp.Opt (RegExp.CsChar "v");
      RegExp.NRep true RegExp.Plus RegExp.CsDigit]
     ++ RegExp.lit ".0.0")
    false false.

Definition isMajorVersion (item : Item) : bool :=
  match version item with
  | Some v => truthy v && RegExp.test majorVersionRegex v
  | None => false
  end.

(** Lines 162-175: version-based adjustment. *)
Definition versionAdjust (item : Item) (sr : Severity * list string)
  : Severity * list string :=
  let '(severity, reasons) := sr in
  if isMajorVersion item then
    match severity with
    | low => (medium, reasons ++ ["major version bump"])
    | medium => (high, reasons ++ ["major version bump"])
    | _ => (severity, reasons)
    end
  else (severity, reasons).

(** Lines 177-186: pre-release adjustment. *)
Definition prereleaseAdjust (item : Item) (sr : Severity * list string)
  : Severity * list string :=
  let '(severity, reasons) := sr in
  if prerelease item then
    match severity with
    | high => (medium, reasons ++ ["pre-release (reduced severity)"])
    | critical => (high, reasons ++ ["pre-release (reduced severity)"])
    | _ => (severity, reasons)
    end
  else (severity, reasons).

(** [[...new Set(reasons)]]: the distinct elements in the order of their
    first occurrence. *)
Fixpoint distinctFrom (seen l : list string) : list string :=
  match l with
  | [] => []
  | x :: l' =>
      if bool_decide (x ∈ seen) then distinctFrom seen l'
      else x :: distinctFrom (x :: seen) l'
  end.

Definition distinct : list string -> list string := distinctFrom [].

Definition getSeverityScore (severity : Severity) : Z :=
  match severity with
  | critical => 4
  | high => 3
  | medium => 2
  | low => 1
  end.

Record Scoring : Type := mkScoring {
  severity : Severity;
  reasons : list string;
  score : Z
}.

Definition finish (sr : Severity * list string) : Scoring :=
  mkScoring (fst sr) (take 3 (distinct (snd sr))) (getSeverityScore (fst sr)).

(** [scoreItem(item, source)] *)
Definition scoreItem (item : Item) (source : Source) : option Scoring :=
  matches ← collectMatches item;
  Some (finish (prereleaseAdjust item (versionAdjust item (baseSeverity matches source)))).

End Scorer.

(* ===================================================================== *)
(** * lib/cache.js *)
(* ===================================================================== *)

Module Cache.

Record LatestItem : Type := mkLatestItem {
  latestId : string;
  latestTitle : string;
  latestPublishedAt : Z
}.

Record SourceState : Type := mkSourceState {
  lastUpdated : string;
  itemCount : nat;
  seenIds : option (list string);      (* [None]: the entry has no such field *)
  latestItem : option LatestItem
}.

Record State : Type := mkState {
  lastRun : option string;
  initialized : bool;
  sources : gmap string SourceState
}.

Record Diff : Type := mkDiff {
  newItems : list ScoredItem;
  isFirstRun : bool
}.

(** [Object.values(o)]; the order of the properties is not used by the
    functions below. *)
Definition Object_values {A} (o : gmap string A) : list A := (map_to_list o).*2.

(** Lines 74-79: the set of the ids seen by the previous run. *)
Definition addSeen (seen : gset string) (sourceState : SourceState) : gset string :=
  match seenIds sourceState with
  | Some ids => foldl (fun seen id => {[id]} ∪ seen) seen ids
  | None => seen
  end.

Definition previouslySeen (previousState : State) : gset string :=
  foldl addSeen ∅ (Object_values (sources previousState)).

(** [getNewItems(scoredItems, previousState)] *)
Definition getNewItems (scoredItems : list ScoredItem) (previousState : State) : Diff :=
  if negb (initialized previousState) then
    mkDiff [] true
  else
    let seen := previouslySeen previousState in
    let newItems :=
      foldl (fun newItems scored =>
               if bool_decide (id (item scored) ∈ seen) then newItems
               else newItems ++ [scored])
            [] scoredItems in
    mkDiff newItems false.

(** A call either returns or throws. *)
Inductive completion (A : Type) : Type :=
| Normal (a : A)
| Throw (e : string).
Arguments Normal {A} a.
Arguments Throw {A} e.

(** The property names an object literal inherits from [Object.prototype]. *)
Definition Object_prototype : list string :=
  [ "constructor"; "hasOwnProperty"; "isPrototypeOf"; "propertyIsEnumerable";
    "toLocaleString"; "toString"; "valueOf"; "__proto__";
    "__defineGetter__"; "__defineSetter__";
    "__lookupGetter__"; "__lookupSetter__" ].

Definition inherited (key : string) : bool := bool_decide (key ∈ Object_prototype).

(** Lines 106-111, one step of the grouping.  [itemsBySource[key]] reads an
    own property when there is one; otherwise the read continues in
    [Object.prototype], whose members are truthy and carry no [push]. *)
Definition groupItem (itemsBySource : gmap string (list ScoredItem))
    (scored : ScoredItem) : completion (gmap string (list ScoredItem)) :=
  let key := source (item scored) in
  match itemsBySource !! key with
  | Some items => Normal (<[key := items ++ [scored]]> itemsBySource)
  | None =>
      if inherited key then Throw "TypeError"
      else Normal (<[key := [scored]]> itemsBySource)
  end.

Fixpoint groupBySource (itemsBySource : gmap string (list ScoredItem))
    (scoredItems : list ScoredItem) : completion (gmap string (list ScoredItem)) :=
  match scoredItems with
  | [] => Normal itemsBySource
  | scored :: more =>
      match groupItem itemsBySource scored with
      | Normal itemsBySource' => groupBySource itemsBySource' more
      | Throw e => Throw e
      end
  end.

(** Lines 115-124: the entry written for one source. *)
Definition sourceEntry (now : string) (items : list ScoredItem) : SourceState :=
  mkSourceState now (length items)
    (Some (map (fun scored => id (item scored)) items))
    (match items with
     | first :: _ =>
         Some (mkLatestItem (id (item first)) (title (item first))
                 (publishedAt (item first)))
     | [] => None
     end).

(** [updateState(scoredItems)].  [clock None] is the reading of the clock
    for [lastRun], [clock (Some sourceId)] the one for that source. *)
Definition updateState (clock : option string -> string)
    (scoredItems : list ScoredItem) : completion State :=
  match groupBySource ∅ scoredItems with
  | Throw e => Throw e
  | Normal itemsBySource =>
      Normal (mkState (Some (clock None)) true
                (map_imap (fun sourceId items =>
                             Some (sourceEntry (clock (Some sourceId)) items))
                          itemsBySource))
  end.

End Cache.

(* ===================================================================== *)
(** * lib/fetchers.js *)
(* ===================================================================== *)

Module Fetchers.
Import JsString.

(** ** fetchUrl *)

Record Options : Type := mkOptions {
  timeout : option N;
  maxSize : option N;
  maxRedirects : option nat;
  redirectCount : option nat
}.

(** [value || fallback] on an optional number: absent and 0 are falsy. *)
Definition orElse (value : option nat) (fallback : nat) : nat :=
  match value with
  | Some (S n) => S n
  | _ => fallback
  end.

Definition orElseN (value : option N) (fallback : N) : N :=
  match value with
  | Some (Npos p) => Npos p
  | _ => fallback
  end.

(** What a request meets before its timer runs out.  The request is the one
    the function issues for the URL (client chosen by protocol, headers of
    the options). *)
Inductive Reply : Type :=
| Response (statusCode : Z) (location : option string) (chunks : list string)
| Failed (message : string)       (* 'error' event, or the request cannot be made *)
| Silent.                         (* no response within the timeout *)

Inductive FetchError : Type :=
| RedirectWithoutLocation (url : string)
| TooManyRedirects (maxRedirects : nat) (url : string)
| HttpError (statusCode : Z) (url : string)
| ResponseTooLarge (maxSize : N) (url : string)
| Timeout (url : string)
| RequestError (message : string).

Inductive Outcome : Type :=
| Resolved (data : string)
| Rejected (error : FetchError)
| Uncaught.     (* an exception leaves the response callback *)

(** Lines 58-71: the body is accumulated chunk by chunk under the size cap. *)
Fixpoint receive (maxSize : N) (url : string) (chunks : list string)
    (data : string) (size : N) : Outcome :=
  match chunks with
  | [] => Resolved data
  | chunk :: more =>
      let size := (size + N.of_nat (String.length chunk))%N in
      if (maxSize <? size)%N then Rejected (ResponseTooLarge maxSize url)
      else receive maxSize url more (data +:+ chunk) size
  end.

Definition isRedirect (statusCode : Z) : bool :=
  bool_decide (statusCode ∈ [301; 302; 307; 308]%Z).

Section FetchUrl.

(** [new URL(relative, base).href]; [None] when the constructor throws. *)
Variable resolveURL : string -> string -> option string.

(** The reply to the n-th request of a fetch, by URL. *)
Variable network : nat -> string -> Reply.

(** The body of [fetchUrl]; [fuel] bounds the nesting of the recursive
    calls and [n] counts the requests issued so far. *)
Fixpoint fetchUrlFrom (fuel : nat) (n : nat) (url : string) (options : Options)
  : option Outcome :=
  match fuel with
  | 0 => None
  | S fuel' =>
      let maxSize := orElseN (maxSize options) (5 * 1024 * 1024) in
      let maxRedirects := orElse (maxRedirects options) 5 in
      match network n url with
      | Failed message => Some (Rejected (RequestError message))
      | Silent => Some (Rejected (Timeout url))
      | Response statusCode location chunks =>
          if isRedirect statusCode then
            match location with
            | Some redirectUrl =>
                if truthy redirectUrl then
                  let redirectCount := orElse (redirectCount options) 0 in
                  if maxRedirects <=? redirectCount then
                    Some (Rejected (TooManyRedirects maxRedirects url))
                  else
                    match (if startsWith "http" redirectUrl then Some redirectUrl
                           else resolveURL redirectUrl url) with
                    | Some newUrl =>
                        fetchUrlFrom fuel' (S n) newUrl
                          (mkOptions (timeout options) (Fetchers.maxSize options)
                             (Fetchers.maxRedirects options)
                             (Some (redirectCount + 1)))
                    | None => Some Uncaught
                    end
                else Some (Rejected (RedirectWithoutLocation url))
            | None => Some (Rejected (RedirectWithoutLocation url))
            end
          else if bool_decide (statusCode ≠ 200%Z) then
            Some (Rejected (HttpError statusCode url))
          else Some (receive maxSize url chunks EmptyString 0)
      end
  end.

(** [fetchUrl(url, options)]: the redirect budget left bounds the nesting. *)
Definition fetchUrl (url : string) (options : Options) : option Outcome :=
  fetchUrlFrom
    (S (orElse (maxRedirects options) 5 - orElse (redirectCount options) 0))
    0 url options.

End FetchUrl.

(** ** parseRSS *)

Definition notGt : RegExp.node :=
  RegExp.NRep false RegExp.Star (RegExp.CsClass true [(">"%char, ">"%char)]).

Definition anyLazy : RegExp.node := RegExp.NRep true RegExp.LazyStar RegExp.CsAny.

(** [/<tag[^>]*>([\s\S]*?)<\/tag>/] *)
Definition element (tag : string) : list RegExp.node :=
  RegExp.lit ("<" +:+ tag) ++ [notGt] ++ RegExp.lit ">" ++ [anyLazy]
  ++ RegExp.lit ("</" +:+ tag +:+ ">").

Definition itemRegex : RegExp.regex := RegExp.mkRegex (element "item") true true.
Definition titleRegex : RegExp.regex := RegExp.mkRegex (element "title") true false.
Definition linkRegex : RegExp.regex := RegExp.mkRegex (element "link") true false.
Definition pubDateRegex : RegExp.regex := RegExp.mkRegex (element "pubDate") true false.

(** [/<description[^>]*><!\[CDATA\[([\s\S]*?)\]\]><\/description>/i] *)
Definition descRegex : RegExp.regex :=
  RegExp.mkRegex
    (RegExp.lit "<description" ++ [notGt] ++ RegExp.lit "><![CDATA[" ++ [anyLazy]
     ++ RegExp.lit "]]></description>")
    true false.

Definition descRegex2 : RegExp.regex := RegExp.mkRegex (element "description") true false.

(** [/<[^>]+>/g] *)
Definition tagRegex : RegExp.regex :=
  RegExp.mkRegex
    (RegExp.lit "<"
     ++ [RegExp.NRep false RegExp.Plus (RegExp.CsClass true [(">"%char, ">"%char)])]
     ++ RegExp.lit ">")
    false true.

(** [/&[a-z0-9#]+;/gi] *)
Definition entityRegex : RegExp.regex :=
  RegExp.mkRegex
    (RegExp.lit "&"
     ++ [RegExp.NRep false RegExp.Plus
           (RegExp.CsClass false
              [("a"%char, "z"%char); ("0"%char, "9"%char); ("#"%char, "#"%char)])]
     ++ RegExp.lit ";")
    true true.

(** [s.replace(re, f)] for a global [re]: every match, left to right, is
    replaced by [f] of the matched text; after an empty match the search
    resumes one character further. *)
Fixpoint replaceFrom (fuel : nat) (re : RegExp.regex) (f : string -> string)
    (prev : option ascii) (s : string) : string :=
  match fuel with
  | 0 => s
  | S fuel' =>
      match RegExp.search (RegExp.ignoreCase re) (RegExp.nodes re) prev s with
      | None => s
      | Some m =>
          RegExp.skipped m +:+ f (RegExp.matched m) +:+
          (if truthy (RegExp.matched m)
           then replaceFrom fuel' re f (RegExp.before m) (RegExp.rest m)
           else match RegExp.rest m with
                | String c r => String c (replaceFrom fuel' re f (Some c) r)
                | EmptyString => EmptyString
                end)
      end
  end.

Definition replace (re : RegExp.regex) (f : string -> string) (s : string) : string :=
  replaceFrom (S (String.length s)) re f None s.

Definition dquote : string := String (ascii_of_nat 34) EmptyString.

Definition entities : list (string * string) :=
  [ ("&amp;", "&"); ("&lt;", "<"); ("&gt;", ">"); ("&quot;", dquote);
    ("&#39;", "'"); ("&apos;", "'") ].

Fixpoint lookupEntity (table : list (string * string)) (key : string) : option string :=
  match table with
  | [] => None
  | (k, v) :: table' => if String.eqb k key then Some v else lookupEntity table' key
  end.

(** [decodeHTMLEntities(text)] *)
Definition decodeHTMLEntities (text : string) : string :=
  replace entityRegex (fun m => default m (lookupEntity entities m)) text.

(** An entry of the feed, as [parseRSS] returns it. *)
Record FeedEntry : Type := mkFeedEntry {
  entryTitle : string;
  entryLink : string;
  entryDescription : string;
  pubDate : string;
  date : Z
}.

(** [re.exec(s)?.[1] || ''] *)
Definition group1OrEmpty (re : RegExp.regex) (s : string) : string :=
  match RegExp.exec re s with
  | Some m => default EmptyString (RegExp.group1 m)
  | None => EmptyString
  end.

(** The fields read from one entry block (lines 105-111). *)
Record RawEntry : Type := mkRawEntry {
  rawTitle : string;
  rawLink : string;
  rawPubDate : string;
  rawDescription : string
}.

Definition readEntry (itemXml : string) : RawEntry :=
  let title := trim (group1OrEmpty titleRegex itemXml) in
  let link := trim (group1OrEmpty linkRegex itemXml) in
  let pubDate := trim (group1OrEmpty pubDateRegex itemXml) in
  let description :=
    let cdata := group1OrEmpty descRegex itemXml in
    if truthy cdata then cdata else group1OrEmpty descRegex2 itemXml in
  let description := trim (replace tagRegex (fun _ => EmptyString) description) in
  mkRawEntry title link pubDate description.

(** The guard of line 113. *)
Definition kept (raw : RawEntry) : bool :=
  truthy (rawTitle raw) && truthy (rawLink raw).

Definition maxItems : nat := 20.

Section ParseRSS.

(** [new Date(s).getTime()] and [Date.now()] *)
Variable Date_parse : string -> Z.
Variable Date_now : Z.

Definition toEntry (raw : RawEntry) : FeedEntry :=
  mkFeedEntry
    (decodeHTMLEntities (rawTitle raw))
    (decodeHTMLEntities (rawLink raw))
    (decodeHTMLEntities (firstChars 500 (rawDescription raw)))
    (rawPubDate raw)
    (if truthy (rawPubDate raw) then Date_parse (rawPubDate raw) else Date_now).

(** The loop of lines 104-123.  [prev] and [xml] are the input at
    [itemRegex.lastIndex]: the character before it and the text from it. *)
Fixpoint parseLoop (fuel : nat) (prev : option ascii) (xml : string)
    (count : nat) (items : list FeedEntry) : list FeedEntry :=
  match fuel with
  | 0 => items
  | S fuel' =>
      match RegExp.search (RegExp.ignoreCase itemRegex) (RegExp.nodes itemRegex) prev xml with
      | None => items
      | Some m =>
          if count <? maxItems then
            let raw := readEntry (default EmptyString (RegExp.group1 m)) in
            if kept raw
            then parseLoop fuel' (RegExp.before m) (RegExp.rest m)
                   (S count) (items ++ [toEntry raw])
            else parseLoop fuel' (RegExp.before m) (RegExp.rest m) count items
          else items
      end
  end.

Definition xmlLimit : N := 2 * 1024 * 1024.

(** [parseRSS(xml)] *)
Definition parseRSS (xml : string) : list FeedEntry :=
  let xml :=
    if (xmlLimit <? N.of_nat (String.length xml))%N
    then firstChars (N.to_nat xmlLimit) xml
    else xml in
  parseLoop (S (String.length xml)) None xml 0 [].

End ParseRSS.

End Fetchers.

(* ===================================================================== *)
(** * The specification's notions

    Definitions that follow the words of the specification; the theorems
    below compare them with the functions of the program. *)
(* ===================================================================== *)

Module Spec.
Import JsString.

(** The union of the [seenIds] sets across all sources of a state. *)
Definition seenUnion (S : Cache.State) : gset string :=
  ⋃ ((fun st => list_to_set (default [] (Cache.seenIds st)))
       <$> Cache.Object_values (Cache.sources S)).

(** The diff of the specification: the items of the batch whose id is not in
    the union, in the order of the batch. *)
Definition diff (B : list ScoredItem) (S : Cache.State) : list ScoredItem :=
  filter (fun scored => id (item scored) ∉ seenUnion S) B.

(** A keyword contains the character [c]. *)
Definition occurs (c : ascii) (keyword : string) : Prop :=
  ∃ a b, keyword = a +:+ String c b.

Definition containsHyphenOrColon (keyword : string) : Prop :=
  occurs "-" keyword ∨ occurs ":" keyword.

(** Plain substring containment. *)
Definition isSubstring (phrase text : string) : Prop :=
  ∃ a b, text = a +:+ phrase +:+ b.

Definition sameIgnoringCase (a b : string) : Prop :=
  toLowerCase a = toLowerCase b.

Definition isWord (o : option ascii) : bool :=
  match o with
  | Some c => isLower c || isUpper c || isDigit c || Ascii.eqb c "_"
  | None => false
  end.

(** The position between [left] and [right] is a word boundary: exactly one
    of the two characters around it is a word character (the ends of the
    text count as non-word characters). *)
Definition wordBoundary (left right : string) : Prop :=
  isWord (lastChar left) ≠ isWord (firstChar right).

(** The phrase occurs in the text, up to case, between two word
    boundaries. *)
Definition occursAtWordBoundaries (phrase text : string) : Prop :=
  ∃ pre mid post,
    text = pre +:+ mid +:+ post
    ∧ sameIgnoringCase mid phrase
    ∧ wordBoundary pre (mid +:+ post)
    ∧ wordBoundary (pre +:+ mid) post.

(** The URL a redirect leads to: an absolute location as it is, any other
    one resolved against the URL that answered. *)
Definition target (resolveURL : string -> string -> option string)
    (url location : string) : option string :=
  if startsWith "http" location then Some location else resolveURL location url.

(** A chain of [n] redirects: for every [k < n], the [k]-th request, to
    [hop k], is answered by a redirect that leads to [hop (k + 1)]. *)
Definition redirectChain (resolveURL : string -> string -> option string)
    (network : nat -> string -> Fetchers.Reply) (hop : nat -> string) (n : nat) : Prop :=
  ∀ k, k < n ->
    ∃ statusCode location chunks,
      network k (hop k) = Fetchers.Response statusCode (Some location) chunks
      ∧ statusCode ∈ [301; 302; 307; 308]%Z
      ∧ location ≠ EmptyString
      ∧ target resolveURL (hop k) location = Some (hop (S k)).

(** The body of a response: its chunks in order. *)
Definition body (chunks : list string) : string :=
  foldr String.append EmptyString chunks.

(** The text [parseRSS] reads: the first 2 MiB of the feed. *)
Definition feedText (xml : string) : string :=
  if (Fetchers.xmlLimit <? N.of_nat (String.length xml))%N
  then firstChars (N.to_nat Fetchers.xmlLimit) xml
  else xml.

(** The entry blocks of a text: the captures of the successive matches of
    [itemRegex], each search resuming where the previous match ended. *)
Fixpoint blocksFrom (fuel : nat) (prev : option ascii) (xml : string) : list string :=
  match fuel with
  | 0 => []
  | S fuel' =>
      match RegExp.search true (RegExp.nodes Fetchers.itemRegex) prev xml with
      | None => []
      | Some m =>
          default EmptyString (RegExp.group1 m)
          :: blocksFrom fuel' (RegExp.before m) (RegExp.rest m)
      end
  end.

Definition entryBlocks (xml : string) : list string :=
  blocksFrom (S (String.length xml)) None xml.

(** Some phrase of the tier matches the lower-cased title and description
    of the item. *)
Definition anyMatches (tier : list string) (item : Item) : Prop :=
  Exists (fun phrase => Scorer.matchKeyword (Scorer.itemText item) phrase = Some true)
    tier.

(** The phrases of the tier that match, in the order of the tier. *)
Definition matched (tier : list string) (item : Item) : list string :=
  filter (fun phrase => Scorer.matchKeyword (Scorer.itemText item) phrase = Some true)
    tier.

Definition noneMatches (item : Item) : Prop :=
  ¬ anyMatches Scorer.CRITICAL_KEYWORDS item
  ∧ ¬ anyMatches Scorer.HIGH_KEYWORDS item
  ∧ ¬ anyMatches Scorer.MEDIUM_KEYWORDS item
  ∧ ¬ anyMatches Scorer.LOW_KEYWORDS item.

(** The major-release form of a version: an optional "v", a major number,
    then ".0.0"; anything may follow. *)
Definition majorReleaseForm (version : string) : Prop :=
  ∃ major rest,
    major ≠ EmptyString
    ∧ allChars isDigit major = true
    ∧ (version = major +:+ ".0.0" +:+ rest
       ∨ version = "v" +:+ major +:+ ".0.0" +:+ rest).

(** One tier up, capped below [critical]: the version escalation. *)
Definition escalate (severity : Severity) : Severity :=
  match severity with
  | low => medium
  | medium => high
  | high => high
  | critical => critical
  end.

(** One tier down from the two upper tiers: the pre-release de-escalation. *)
Definition deescalate (severity : Severity) : Severity :=
  match severity with
  | critical => high
  | high => medium
  | medium => medium
  | low => low
  end.

End Spec.

(* ===================================================================== *)
(** * Properties of strings and of the matcher *)
(* ===================================================================== *)

(** Case analysis over the 256 characters. *)
Ltac every_char c := destruct c as [[] [] [] [] [] [] [] []]; vm_compute.

Section StringFacts.
Import JsString.

Lemma append_nil_r (s : string) : s +:+ EmptyString = s.
Proof. induction s as [|c s IH]; simpl; [done | by rewrite IH]. Qed.

Lemma append_assoc (a b c : string) : (a +:+ b) +:+ c = a +:+ b +:+ c.
Proof. induction a as [|x a IH]; simpl; [done | by rewrite IH]. Qed.

Lemma length_append (a b : string) :
  String.length (a +:+ b) = String.length a + String.length b.
Proof. induction a as [|x a IH]; simpl; [done | by rewrite IH]. Qed.

Lemma lastFrom_append (prev : option ascii) (a b : string) :
  lastFrom prev (a +:+ b) = lastFrom (lastFrom prev a) b.
Proof. revert prev. induction a as [|x a IH]; intros prev; simpl; [done | apply IH]. Qed.

Lemma mapChars_empty (f : ascii -> ascii) (s : string) :
  mapChars f s = EmptyString -> s = EmptyString.
Proof. by destruct s. Qed.

Lemma mapChars_append (f : ascii -> ascii) (a b : string) :
  mapChars f (a +:+ b) = mapChars f a +:+ mapChars f b.
Proof. induction a as [|x a IH]; simpl; [done | by rewrite IH]. Qed.

Lemma startsWith_iff (p s : string) :
  startsWith p s = true ↔ ∃ b, s = p +:+ b.
Proof.
  revert s. induction p as [|x p IH]; intros s; simpl.
  - split; [eauto | done].
  - destruct s as [|y s].
    + split; [done | by intros [b ?]].
    + rewrite andb_true_iff, IH. split.
      * intros [Hxy [b ->]]. apply Ascii.eqb_eq in Hxy as ->. eauto.
      * intros [b Hb]. injection Hb as -> ->. split; [apply Ascii.eqb_refl | eauto].
Qed.

Lemma includes_iff (s p : string) :
  includes s p = true ↔ Spec.isSubstring p s.
Proof.
  unfold Spec.isSubstring. induction s as [|y s IH].
  - simpl. rewrite orb_false_r, startsWith_iff. split.
    + intros [b Hb]. by exists EmptyString, b.
    + intros (a & b & Hab). destruct a; [eauto | discriminate].
  - change (includes (String y s) p) with (startsWith p (String y s) || includes s p).
    rewrite orb_true_iff, startsWith_iff, IH. split.
    + intros [[b Hb]|(a & b & ->)].
      * by exists EmptyString, b.
      * by exists (String y a), b.
    + intros (a & b & Hab). destruct a as [|x a].
      * left. eauto.
      * right. injection Hab as -> ->. eauto.
Qed.

Lemma contains_iff (c : ascii) (s : string) :
  contains c s = true ↔ Spec.occurs c s.
Proof.
  unfold Spec.occurs. induction s as [|y s IH]; simpl.
  - split; [done | intros (a & b & Hab); by destruct a].
  - rewrite orb_true_iff, IH, Ascii.eqb_eq. split.
    + intros [->|(a & b & ->)].
      * by exists EmptyString, s.
      * by exists (String y a), b.
    + intros (a & b & Hab). destruct a as [|x a].
      * left. by injection Hab as -> ->.
      * right. injection Hab as -> ->. eauto.
Qed.

Lemma toLower_toUpper (c : ascii) : toLowerChar (toUpperChar c) = toLowerChar c.
Proof. every_char c; reflexivity. Qed.

Lemma toUpper_toLower (c : ascii) : toUpperChar (toLowerChar c) = toUpperChar c.
Proof. every_char c; reflexivity. Qed.

Lemma toLowerChar_sign (c x : ascii) :
  x = "-"%char ∨ x = ":"%char -> Ascii.eqb x (toLowerChar c) = Ascii.eqb x c.
Proof. intros [->| ->]; every_char c; reflexivity. Qed.

Lemma contains_toLowerCase (x : ascii) (s : string) :
  x = "-"%char ∨ x = ":"%char -> contains x (toLowerCase s) = contains x s.
Proof.
  intros Hx. unfold toLowerCase. induction s as [|y s IH]; simpl; [done |].
  by rewrite IH, (toLowerChar_sign y x Hx).
Qed.

(** Equality up to the canonicalization of the matcher is equality of the
    lower-cased texts. *)
Lemma canonical_sameIgnoringCase (a b : string) :
  mapChars (RegExp.canonicalize true) a = mapChars (RegExp.canonicalize true) b
  ↔ Spec.sameIgnoringCase a b.
Proof.
  unfold Spec.sameIgnoringCase, toLowerCase. revert b.
  induction a as [|x a IH]; intros [|y b]; simpl; try done.
  split; intros H; injection H as Hxy Hab; f_equal.
  - by rewrite <- (toLower_toUpper x), <- (toLower_toUpper y), Hxy.
  - by apply IH.
  - by rewrite <- (toUpper_toLower x), <- (toUpper_toLower y), Hxy.
  - by apply IH.
Qed.

End StringFacts.

Section MatcherFacts.
Import JsString RegExp.

Lemma isWord_wordAt (o : option ascii) : Spec.isWord o = wordAt o.
Proof. by destruct o. Qed.

(** A literal part of a pattern matches the texts equal to it up to
    canonicalization, and leaves the capture as it is. *)
Lemma matchNodes_lit (ic : bool) (kw : string) (ns : list node) (cap : option string)
    (prev : option ascii) (s : string) (r : option string * string) :
  matchNodes ic (lit kw ++ ns) cap prev s = Some r
  ↔ ∃ mid post,
      s = mid +:+ post
      ∧ mapChars (canonicalize ic) mid = mapChars (canonicalize ic) kw
      ∧ matchNodes ic ns cap (lastFrom prev mid) post = Some r.
Proof.
  revert prev s. induction kw as [|a kw IH]; intros prev s.
  - simpl. split.
    + intros H. by exists EmptyString, s.
    + intros (mid & post & -> & Hmid & H).
      apply mapChars_empty in Hmid as ->. done.
  - change (matchNodes ic (lit (String a kw) ++ ns) cap prev s)
      with (match s with
            | String c s' =>
                if csMatch ic (CsChar a) c
                then matchNodes ic (lit kw ++ ns) cap (Some c) s'
                else None
            | EmptyString => None
            end).
    destruct s as [|c s].
    + split; [done |]. intros (mid & post & Hs & Hmid & _).
      destruct mid; [discriminate Hmid | discriminate Hs].
    + simpl csMatch. destruct (Ascii.eqb_spec (canonicalize ic a) (canonicalize ic c)) as [Hac|Hac].
      * rewrite IH. split.
        -- intros (mid & post & -> & Hmid & H). exists (String c mid), post.
           simpl. by rewrite Hmid, Hac.
        -- intros (mid & post & Hs & Hmid & H). destruct mid as [|c' mid];
             [discriminate Hmid |].
           injection Hs as -> ->. injection Hmid as _ Hmid. eauto.
      * split; [done |]. intros (mid & post & Hs & Hmid & _).
        destruct mid as [|c' mid]; [discriminate Hmid |].
        injection Hs as -> ->. injection Hmid as Hca _. congruence.
Qed.

(** The search finds a match exactly when the sequence matches at some
    position of the text. *)
Lemma search_is_Some (ic : bool) (ns : list node) (prev : option ascii) (s : string) :
  is_Some (search ic ns prev s)
  ↔ ∃ pre post,
      s = pre +:+ post ∧ is_Some (matchNodes ic ns None (lastFrom prev pre) post).
Proof.
  revert prev. induction s as [|c s IH]; intros prev.
  - simpl. destruct (matchNodes ic ns None prev EmptyString) as [[cap r]|] eqn:E.
    + split; [|eauto]. intros _. exists EmptyString, EmptyString. simpl.
      rewrite E. eauto.
    + split; [by intros [? ?] |]. intros (pre & post & Hs & H).
      destruct pre; [|discriminate]. simpl in Hs. subst post. simpl in H.
      rewrite E in H. by destruct H.
  - change (search ic ns prev (String c s))
      with (match matchNodes ic ns None prev (String c s) with
            | Some (cap, r) =>
                Some (mkFound EmptyString (consumed (String c s) r) cap r
                        (lastFrom prev (consumed (String c s) r)))
            | None => skipChar c <$> search ic ns (Some c) s
            end).
    destruct (matchNodes ic ns None prev (String c s)) as [[cap r]|] eqn:E.
    + split; [|eauto]. intros _. exists EmptyString, (String c s). simpl.
      rewrite E. eauto.
    + rewrite fmap_is_Some, IH. split.
      * intros (pre & post & -> & H). by exists (String c pre), post.
      * intros (pre & post & Hs & H). destruct pre as [|c' pre].
        -- simpl in Hs, H. subst post. rewrite E in H. by destruct H.
        -- injection Hs as -> ->. eauto.
Qed.

Lemma test_true (re : regex) (s : string) :
  test re s = true
  ↔ ∃ pre post,
      s = pre +:+ post
      ∧ is_Some (matchNodes (ignoreCase re) (nodes re) None (lastChar pre) post).
Proof.
  unfold test, exec, lastChar. rewrite <- search_is_Some.
  destruct (search _ _ _ _); split; eauto; try done.
Qed.

(** [\bphrase\b] with the flag [i]. *)
Definition wordBounded (phrase : string) : regex :=
  mkRegex (NWordBoundary :: lit phrase ++ [NWordBoundary]) true false.

Lemma boundary_xorb (o1 o2 : option ascii) :
  Spec.isWord o1 ≠ Spec.isWord o2 ↔ xorb (wordAt o1) (wordAt o2) = true.
Proof.
  rewrite (isWord_wordAt o1), (isWord_wordAt o2).
  destruct (wordAt o1), (wordAt o2); simpl; split; intros; congruence.
Qed.

Lemma test_wordBounded (phrase text : string) :
  test (wordBounded phrase) text = true ↔ Spec.occursAtWordBoundaries phrase text.
Proof.
  rewrite test_true. unfold Spec.occursAtWordBoundaries, Spec.wordBoundary.
  simpl nodes. simpl ignoreCase. split.
  - intros (pre & rest & -> & [r H]). simpl in H.
    destruct (xorb (wordAt (lastChar pre)) (wordAt (firstChar rest))) eqn:Hb1;
      [|done].
    apply matchNodes_lit in H as (mid & post & -> & Hmid & H). simpl in H.
    destruct (xorb (wordAt (lastFrom (lastChar pre) mid)) (wordAt (firstChar post)))
      eqn:Hb2; [|done].
    exists pre, mid, post.
    split_and!; [done | exact (proj1 (canonical_sameIgnoringCase _ _) Hmid) | |].
    + by apply boundary_xorb.
    + apply boundary_xorb. unfold lastChar in *. by rewrite lastFrom_append.
  - intros (pre & mid & post & -> & Hmid & Hb1 & Hb2).
    apply boundary_xorb in Hb1, Hb2.
    exists pre, (mid +:+ post). split; [done |]. simpl. rewrite Hb1.
    exists (None, post). apply matchNodes_lit. exists mid, post.
    split_and!; [done | exact (proj2 (canonical_sameIgnoringCase _ _) Hmid) |].
    simpl. unfold lastChar in *. rewrite lastFrom_append in Hb2. by rewrite Hb2.
Qed.

Lemma lastFrom_None (prev : option ascii) (s : string) :
  lastFrom prev s = None ↔ prev = None ∧ s = EmptyString.
Proof.
  revert prev. induction s as [|c s IH]; intros prev; simpl.
  - naive_solver.
  - rewrite IH. naive_solver.
Qed.

Section RepetitionMatches.
Variable ic : bool.
Variable cs : charset.
Variable k : option ascii -> string -> option (option string * string).

(** A greedy repetition succeeds exactly when some run of matching
    characters can be followed by the rest of the pattern. *)
Lemma greedy_is_Some (prev : option ascii) (s : string) :
  is_Some (greedy ic cs k prev s)
  ↔ ∃ a b, s = a +:+ b ∧ allChars (csMatch ic cs) a = true
           ∧ is_Some (k (lastFrom prev a) b).
Proof.
  revert prev. induction s as [|c s IH]; intros prev.
  - simpl. split.
    + intros H. by exists EmptyString, EmptyString.
    + intros (a & b & Hs & _ & H). destruct a; [|discriminate].
      simpl in Hs. by subst b.
  - cbn [greedy]. destruct (csMatch ic cs c) eqn:Hc.
    + split.
      * destruct (greedy ic cs k (Some c) s) eqn:E.
        -- intros _. destruct (proj1 (IH (Some c))) as (a & b & -> & Ha & H);
             [by rewrite E |].
           exists (String c a), b. simpl. by rewrite Hc, Ha.
        -- intros H. by exists EmptyString, (String c s).
      * intros (a & b & Hs & Ha & H). destruct a as [|c' a].
        -- simpl in Hs, H. subst b. by destruct (greedy ic cs k (Some c) s).
        -- injection Hs as <- ->. simpl in Ha, H. apply andb_true_iff in Ha as [_ Ha].
           destruct (proj2 (IH (Some c))) as [r Hr]; [eauto |]. by rewrite Hr.
    + split.
      * intros H. by exists EmptyString, (String c s).
      * intros (a & b & Hs & Ha & H). destruct a as [|c' a].
        -- simpl in Hs, H. by subst b.
        -- injection Hs as -> ->. simpl in Ha. by rewrite Hc in Ha.
Qed.

Lemma rep_Plus_is_Some (prev : option ascii) (s : string) :
  is_Some (rep ic cs k Plus prev s)
  ↔ ∃ a b, s = a +:+ b ∧ a ≠ EmptyString ∧ allChars (csMatch ic cs) a = true
           ∧ is_Some (k (lastFrom prev a) b).
Proof.
  cbn [rep]. destruct s as [|c s].
  - split; [by intros [? ?] |]. intros (a & b & Hs & Hne & _). by destruct a.
  - destruct (csMatch ic cs c) eqn:Hc.
    + rewrite greedy_is_Some. split.
      * intros (a & b & -> & Ha & H). exists (String c a), b. simpl.
        by rewrite Hc, Ha.
      * intros (a & b & Hs & Hne & Ha & H). destruct a as [|c' a]; [done |].
        injection Hs as -> ->. simpl in Ha, H. apply andb_true_iff in Ha as [_ Ha].
        eauto.
    + split; [by intros [? ?] |]. intros (a & b & Hs & Hne & Ha & _).
      destruct a as [|c' a]; [done |]. injection Hs as -> ->. simpl in Ha.
      by rewrite Hc in Ha.
Qed.

Lemma rep_Opt_is_Some (prev : option ascii) (s : string) :
  is_Some (rep ic cs k Opt prev s)
  ↔ (∃ c s', s = String c s' ∧ csMatch ic cs c = true ∧ is_Some (k (Some c) s'))
    ∨ is_Some (k prev s).
Proof.
  cbn [rep]. destruct s as [|c s].
  - split; [auto |]. by intros [(c & s' & ? & _)|?].
  - destruct (csMatch ic cs c) eqn:Hc.
    + destruct (k (Some c) s) eqn:E.
      * split; [|eauto]. intros _. left. exists c, s. by rewrite E.
      * split; [auto |]. intros [(c' & s' & [= <- <-] & _ & H)|H]; [|done].
        rewrite E in H. by destruct H.
    + split; [auto |]. intros [(c' & s' & [= <- <-] & Hc' & _)|H]; [congruence | done].
Qed.

End RepetitionMatches.

Lemma mapChars_canonicalize_false (s : string) :
  mapChars (canonicalize false) s = s.
Proof. induction s as [|c s IH]; simpl; [done | by rewrite IH]. Qed.

Lemma matchNodes_lit_only (kw : string) (cap : option string) (prev : option ascii)
    (s : string) :
  is_Some (matchNodes false (lit kw) cap prev s) ↔ ∃ post, s = kw +:+ post.
Proof.
  rewrite <- (app_nil_r (lit kw)). split.
  - intros [r H]. apply matchNodes_lit in H as (mid & post & -> & Hmid & _).
    rewrite !mapChars_canonicalize_false in Hmid. subst mid. eauto.
  - intros [post ->]. exists (cap, post). apply matchNodes_lit.
    exists kw, post. by rewrite !mapChars_canonicalize_false.
Qed.

(** The versions matched by [majorVersionRegex]. *)
Lemma test_majorVersionRegex (v : string) :
  test Scorer.majorVersionRegex v = true ↔ Spec.majorReleaseForm v.
Proof.
  rewrite test_true. unfold Spec.majorReleaseForm.
  change (nodes Scorer.majorVersionRegex)
    with (NBegin :: NRep false Opt (CsChar "v")
            :: NRep true Plus CsDigit :: lit ".0.0").
  change (ignoreCase Scorer.majorVersionRegex) with false.
  assert (Hnumber : ∀ prev s,
             is_Some (matchNodes false (NRep true Plus CsDigit :: lit ".0.0")
                        None prev s)
             ↔ ∃ major rest, major ≠ EmptyString ∧ allChars isDigit major = true
                             ∧ s = major +:+ ".0.0" +:+ rest).
  { intros prev s. cbn [matchNodes]. rewrite rep_Plus_is_Some. split.
    - intros (a & b & -> & Hne & Ha & H).
      apply matchNodes_lit_only in H as [post ->]. by exists a, post.
    - intros (major & post & Hne & Hd & ->). exists major, (".0.0" +:+ post).
      split_and!; [done | done | done |]. apply matchNodes_lit_only. eauto. }
  assert (Hversion : ∀ s,
             is_Some (matchNodes false
                        (NBegin :: NRep false Opt (CsChar "v")
                           :: NRep true Plus CsDigit :: lit ".0.0") None None s)
             ↔ (∃ c s', s = String c s' ∧ Ascii.eqb "v" c = true
                        ∧ is_Some (matchNodes false
                                     (NRep true Plus CsDigit :: lit ".0.0")
                                     None (Some c) s'))
               ∨ is_Some (matchNodes false (NRep true Plus CsDigit :: lit ".0.0")
                            None None s)).
  { intros s. apply rep_Opt_is_Some. }
  split.
  - intros (pre & post & -> & H).
    destruct (lastChar pre) eqn:Hpre; [by destruct H |].
    apply lastFrom_None in Hpre as [_ ->].
    apply Hversion in H as [(c & s' & -> & Hc & H)|H].
    + apply Hnumber in H as (major & rest & Hne & Hd & ->).
      apply Ascii.eqb_eq in Hc as <-. exists major, rest. auto.
    + apply Hnumber in H as (major & rest & Hne & Hd & ->).
      exists major, rest. auto.
  - intros (major & rest & Hne & Hd & [-> | ->]).
    + exists EmptyString, (major +:+ ".0.0" +:+ rest). split; [done |].
      apply Hversion. right. apply Hnumber. eauto.
    + exists EmptyString, ("v" +:+ major +:+ ".0.0" +:+ rest). split; [done |].
      apply Hversion. left.
      exists "v"%char, (major +:+ ".0.0" +:+ rest). split_and!; [done | done |].
      apply Hnumber. eauto.
Qed.

Lemma hyphenOrColon_char (c : ascii) :
  csMatch false (CsClass false [("-"%char, "-"%char); (":"%char, ":"%char)]) c
  = Ascii.eqb "-" c || Ascii.eqb ":" c.
Proof. every_char c; reflexivity. Qed.

Lemma search_String (ic : bool) (ns : list node) (prev : option ascii)
    (c : ascii) (s : string) :
  search ic ns prev (String c s)
  = match matchNodes ic ns None prev (String c s) with
    | Some (cap, r) =>
        Some (mkFound EmptyString (consumed (String c s) r) cap r
                (lastFrom prev (consumed (String c s) r)))
    | None => skipChar c <$> search ic ns (Some c) s
    end.
Proof. reflexivity. Qed.

Lemma test_hyphenOrColon (s : string) :
  test Scorer.hyphenOrColon s = contains "-" s || contains ":" s.
Proof.
  unfold test, exec. simpl nodes. simpl ignoreCase.
  generalize (@None ascii) as prev.
  induction s as [|c s IH]; intros prev; [done |].
  change (contains "-" (String c s) || contains ":" (String c s))
    with (Ascii.eqb "-" c || contains "-" s || (Ascii.eqb ":" c || contains ":" s)).
  rewrite search_String.
  change (matchNodes false [NRep false One ?cs] None prev (String c s))
    with (if csMatch false cs c then Some (@None string, s) else None).
  rewrite hyphenOrColon_char. specialize (IH (Some c)).
  destruct (Ascii.eqb "-" c), (Ascii.eqb ":" c); simpl; try by rewrite ?orb_true_r.
  rewrite <- IH. by destruct (search _ _ _ _).
Qed.

(** The escaped phrase is read back as the phrase itself: every syntax
    character of the pattern language is in the class that
    [escapeRegExp] escapes. *)
Lemma parse_escapeRegExp (phrase tail : string) :
  parse (Scorer.escapeRegExp phrase +:+ tail) = (lit phrase ++.) <$> parse tail.
Proof.
  induction phrase as [|c phrase IH].
  - simpl. by destruct (parse tail).
  - assert (Hc : (contains c ".*+?^${}()|[]\" = true
                  ∧ isSyntaxChar c = true ∧ Ascii.eqb c "b" = false)
                 ∨ (contains c ".*+?^${}()|[]\" = false
                    ∧ isSyntaxChar c = false ∧ Ascii.eqb c "\" = false)).
    { every_char c; auto. }
    change (Scorer.escapeRegExp (String c phrase))
      with (if contains c ".*+?^${}()|[]\"
            then String "\" (String c (Scorer.escapeRegExp phrase))
            else String c (Scorer.escapeRegExp phrase)).
    destruct Hc as [(-> & H1 & H2)|(-> & H1 & H2)].
    + simpl. rewrite H2, H1, IH. by destruct (parse tail).
    + simpl. rewrite H2, H1, IH. by destruct (parse tail).
Qed.

Lemma compile_wordBounded (phrase : string) :
  compile ("\b" +:+ Scorer.escapeRegExp phrase +:+ "\b") true false
  = Some (wordBounded phrase).
Proof.
  unfold compile, wordBounded.
  change (parse ("\b" +:+ Scorer.escapeRegExp phrase +:+ "\b"))
    with ((NWordBoundary ::.) <$> parse (Scorer.escapeRegExp phrase +:+ "\b")).
  by rewrite parse_escapeRegExp.
Qed.

End MatcherFacts.

(* ===================================================================== *)
(** * Properties of lib/scorer.js *)
(* ===================================================================== *)

Section ScorerFacts.
Import JsString Scorer.

(** [matchKeyword] always returns a boolean: the pattern it assembles is
    read by [RegExp.compile]. *)
Lemma matchKeyword_eq (text keyword : string) :
  matchKeyword text keyword
  = Some (if contains "-" keyword || contains ":" keyword
          then includes text (toLowerCase keyword)
          else RegExp.test (wordBounded (toLowerCase keyword)) text).
Proof.
  unfold matchKeyword.
  rewrite test_hyphenOrColon, !contains_toLowerCase by auto.
  destruct (contains "-" keyword || contains ":" keyword); [done |].
  by rewrite compile_wordBounded.
Qed.

Lemma matchKeyword_defined (text keyword : string) :
  is_Some (matchKeyword text keyword).
Proof. rewrite matchKeyword_eq. eauto. Qed.

Lemma matching_matched (text : string) (keywords : list string) :
  matching text keywords
  = Some (filter (fun phrase => matchKeyword text phrase = Some true) keywords).
Proof.
  induction keywords as [|k keywords IH]; [done |].
  simpl. rewrite IH. destruct (matchKeyword_defined text k) as [[] Hk];
    rewrite Hk; simpl.
  - by rewrite filter_cons_True.
  - rewrite filter_cons_False; [done | congruence].
Qed.

Lemma collectMatches_matched (item : Item) :
  collectMatches item
  = Some (mkMatches (Spec.matched CRITICAL_KEYWORDS item)
            (Spec.matched HIGH_KEYWORDS item)
            (Spec.matched MEDIUM_KEYWORDS item)
            (Spec.matched LOW_KEYWORDS item)).
Proof. unfold collectMatches. by rewrite !matching_matched. Qed.

Lemma nonEmpty_matched (tier : list string) (item : Item) :
  nonEmpty (Spec.matched tier item) = true ↔ Spec.anyMatches tier item.
Proof.
  unfold Spec.matched, Spec.anyMatches. rewrite Exists_exists. split.
  - destruct (filter _ tier) as [|k l] eqn:E; [done |]. intros _.
    assert (Hk : k ∈ filter (fun phrase =>
                   matchKeyword (itemText item) phrase = Some true) tier)
      by (rewrite E; left).
    apply list_elem_of_filter in Hk as [? ?]. eauto.
  - intros (k & Hin & Hk).
    assert (Hk' : k ∈ filter (fun phrase =>
                   matchKeyword (itemText item) phrase = Some true) tier)
      by (by apply list_elem_of_filter).
    destruct (filter _ tier); [by inversion Hk' | done].
Qed.

Lemma nonEmpty_matched_false (tier : list string) (item : Item) :
  nonEmpty (Spec.matched tier item) = false ↔ ¬ Spec.anyMatches tier item.
Proof.
  rewrite <- nonEmpty_matched. by destruct (nonEmpty _).
Qed.

(** The versions that trigger the escalation are those of the
    major-release form. *)
Lemma isMajorVersion_iff (item : Item) :
  isMajorVersion item = true
  ↔ ∃ v, version item = Some v ∧ Spec.majorReleaseForm v.
Proof.
  unfold isMajorVersion. destruct (version item) as [v|].
  - rewrite andb_true_iff, test_majorVersionRegex. split.
    + intros [_ Hform]. eauto.
    + intros (v' & [= <-] & Hform). split; [|done].
      destruct Hform as (major & rest & Hne & _ & [-> | ->]); [|done].
      by destruct major.
  - split; [done | by intros (v & ? & _)].
Qed.

Lemma versionAdjust_severity (item : Item) (sr : Severity * list string) :
  fst (versionAdjust item sr)
  = if isMajorVersion item then Spec.escalate (fst sr) else fst sr.
Proof.
  destruct sr as [sev rs]. unfold versionAdjust.
  by destruct (isMajorVersion item), sev.
Qed.

Lemma prereleaseAdjust_severity (item : Item) (sr : Severity * list string) :
  fst (prereleaseAdjust item sr)
  = if prerelease item then Spec.deescalate (fst sr) else fst sr.
Proof.
  destruct sr as [sev rs]. unfold prereleaseAdjust.
  by destruct (prerelease item), sev.
Qed.

(** The adjustments only append labels to the reasons. *)
Lemma versionAdjust_reasons (item : Item) (sr : Severity * list string) :
  ∃ labels,
    snd (versionAdjust item sr) = snd sr ++ labels
    ∧ (labels = [] ∨ labels = ["major version bump"]).
Proof.
  destruct sr as [sev rs]. unfold versionAdjust.
  destruct (isMajorVersion item), sev; simpl; eauto.
  all: exists []; rewrite app_nil_r; auto.
Qed.

Lemma prereleaseAdjust_reasons (item : Item) (sr : Severity * list string) :
  ∃ labels,
    snd (prereleaseAdjust item sr) = snd sr ++ labels
    ∧ (labels = [] ∨ labels = ["pre-release (reduced severity)"]).
Proof.
  destruct sr as [sev rs]. unfold prereleaseAdjust.
  destruct (prerelease item), sev; simpl; eauto.
  all: exists []; rewrite app_nil_r; auto.
Qed.

Lemma distinctFrom_spec (seen l : list string) :
  NoDup (distinctFrom seen l)
  ∧ ∀ x, x ∈ distinctFrom seen l ↔ x ∈ l ∧ x ∉ seen.
Proof.
  revert seen. induction l as [|y l IH]; intros seen; simpl.
  - split; [constructor |]. intros x. split; [by inversion 1 | by intros [H _]; inversion H].
  - case_bool_decide as Hy.
    + destruct (IH seen) as [Hnd Hin]. split; [done |]. intros x.
      rewrite Hin, elem_of_cons. naive_solver.
    + destruct (IH (y :: seen)) as [Hnd Hin]. split.
      * constructor; [|done]. rewrite Hin. rewrite elem_of_cons. naive_solver.
      * intros x. rewrite !elem_of_cons, Hin, elem_of_cons.
        destruct (decide (x = y)); naive_solver.
Qed.

Lemma distinct_NoDup (l : list string) : NoDup (distinct l).
Proof. apply distinctFrom_spec. Qed.

Lemma distinct_head (x : string) (l : list string) :
  ∃ l', distinct (x :: l) = x :: l'.
Proof.
  unfold distinct. simpl. eauto.
Qed.

(** The reasons returned by [finish]: between one and three, distinct, and
    headed by the first reason collected. *)
Lemma finish_reasons (sev : Severity) (first : string) (more : list string) :
  let r := finish (sev, first :: more) in
  1 ≤ length (reasons r) ≤ 3
  ∧ NoDup (reasons r)
  ∧ head (reasons r) = Some first.
Proof.
  intros r. subst r. unfold finish. cbn [reasons snd fst].
  destruct (distinct_head first more) as [l' Hl'].
  pose proof (distinct_NoDup (first :: more)) as Hnd. rewrite Hl' in *.
  split_and!.
  - simpl. lia.
  - rewrite length_take. lia.
  - eapply sublist_NoDup; [exact Hnd | apply sublist_take].
  - done.
Qed.

(** The base reasons are never empty. *)
Lemma baseSeverity_reasons (matches : Matches) (source : Source) :
  ∃ first more, snd (baseSeverity matches source) = first :: more.
Proof.
  unfold baseSeverity.
  destruct (m_critical matches) as [|? ?]; simpl; [|eauto].
  destruct (m_high matches) as [|? ?]; simpl; [|eauto].
  destruct (m_medium matches) as [|? ?]; simpl; [|eauto].
  destruct (m_low matches) as [|? ?]; simpl; eauto.
Qed.

End ScorerFacts.

(** ** The scorer against its specification *)

(** C3.  The base severity follows the precedence of the tiers: critical
    when a critical phrase matches the lower-cased title and description,
    else high, else medium, else low when a phrase of that tier matches;
    when no phrase of any tier matches, it is the hint of the source ([low]
    without a hint) with the single reason "default from source".  The
    adjustments of [scoreItem] start from this severity. *)
Theorem baseSeverity_precedence (item : Item) (source : Source) :
  ∃ matches,
    Scorer.collectMatches item = Some matches
    ∧ Scorer.scoreItem item source
      = Some (Scorer.finish
                (Scorer.prereleaseAdjust item
                   (Scorer.versionAdjust item (Scorer.baseSeverity matches source))))
    ∧ (Spec.anyMatches Scorer.CRITICAL_KEYWORDS item ->
       fst (Scorer.baseSeverity matches source) = critical)
    ∧ (¬ Spec.anyMatches Scorer.CRITICAL_KEYWORDS item ->
       Spec.anyMatches Scorer.HIGH_KEYWORDS item ->
       fst (Scorer.baseSeverity matches source) = high)
    ∧ (¬ Spec.anyMatches Scorer.CRITICAL_KEYWORDS item ->
       ¬ Spec.anyMatches Scorer.HIGH_KEYWORDS item ->
       Spec.anyMatches Scorer.MEDIUM_KEYWORDS item ->
       fst (Scorer.baseSeverity matches source) = medium)
    ∧ (¬ Spec.anyMatches Scorer.CRITICAL_KEYWORDS item ->
       ¬ Spec.anyMatches Scorer.HIGH_KEYWORDS item ->
       ¬ Spec.anyMatches Scorer.MEDIUM_KEYWORDS item ->
       Spec.anyMatches Scorer.LOW_KEYWORDS item ->
       fst (Scorer.baseSeverity matches source) = low)
    ∧ (Spec.noneMatches item ->
       Scorer.baseSeverity matches source
       = (default low (severityHint source), ["default from source"])).
Proof.
  eexists. split; [apply collectMatches_matched |].
  split; [unfold Scorer.scoreItem; by rewrite collectMatches_matched |].
  unfold Scorer.baseSeverity, Spec.noneMatches.
  cbn [Scorer.m_critical Scorer.m_high Scorer.m_medium Scorer.m_low].
  split_and!.
  - intros Hc%nonEmpty_matched. by rewrite Hc.
  - intros Hc%nonEmpty_matched_false Hh%nonEmpty_matched. by rewrite Hc, Hh.
  - intros Hc%nonEmpty_matched_false Hh%nonEmpty_matched_false Hm%nonEmpty_matched.
    by rewrite Hc, Hh, Hm.
  - intros Hc%nonEmpty_matched_false Hh%nonEmpty_matched_false
      Hm%nonEmpty_matched_false Hl%nonEmpty_matched.
    by rewrite Hc, Hh, Hm, Hl.
  - intros (Hc%nonEmpty_matched_false & Hh%nonEmpty_matched_false
            & Hm%nonEmpty_matched_false & Hl%nonEmpty_matched_false).
    by rewrite Hc, Hh, Hm, Hl.
Qed.

(** C4.  [matchKeyword] returns a boolean.  For a keyword that contains a
    hyphen or a colon it is true exactly when the lower-cased keyword is a
    substring of the text; for any other keyword it is true exactly when the
    lower-cased keyword occurs in the text, up to case, between two word
    boundaries.  The keyword "rce" does not match "resource allocation", and
    "zero-day" matches "a zero-day exploit". *)
Theorem matchKeyword_semantics :
  (∀ text keyword,
      ∃ hit,
        Scorer.matchKeyword text keyword = Some hit
        ∧ (Spec.containsHyphenOrColon keyword ->
           (hit = true ↔ Spec.isSubstring (JsString.toLowerCase keyword) text))
        ∧ (¬ Spec.containsHyphenOrColon keyword ->
           (hit = true
            ↔ Spec.occursAtWordBoundaries (JsString.toLowerCase keyword) text)))
  ∧ Scorer.matchKeyword "resource allocation" "rce" = Some false
  ∧ Scorer.matchKeyword "a zero-day exploit" "zero-day" = Some true.
Proof.
  split; [|split; vm_compute; reflexivity].
  intros text keyword. eexists. split; [apply matchKeyword_eq |].
  unfold Spec.containsHyphenOrColon. rewrite <- !contains_iff.
  destruct (JsString.contains "-" keyword) eqn:Hh;
    destruct (JsString.contains ":" keyword) eqn:Hc; simpl.
  1-3: split; [intros _; apply includes_iff | intros Hn; exfalso; apply Hn; auto].
  split; [by intros [?|?] |]. intros _. apply test_wordBounded.
Qed.

(** C5.  The severity [scoreItem] returns is the base severity moved by the
    two adjustments: for a version of the major-release form (an optional
    "v", a number, ".0.0"), one tier up from low or medium (critical and
    high stay); then, for a pre-release, one tier down from critical or high
    (medium and low stay).  An item that
    matches no keyword, from a source hinted low, with version "v2.0.0"
    scores medium; an item that matches a critical keyword and is a
    pre-release scores high. *)
Theorem severity_adjustments (item : Item) (source : Source) :
  ∃ matches scoring,
    Scorer.collectMatches item = Some matches
    ∧ Scorer.scoreItem item source = Some scoring
    ∧ (let base := fst (Scorer.baseSeverity matches source) in
       let versioned :=
         if Scorer.isMajorVersion item then Spec.escalate base else base in
       Scorer.severity scoring
       = if prerelease item then Spec.deescalate versioned else versioned)
    ∧ (Scorer.isMajorVersion item = true
       ↔ ∃ v, version item = Some v ∧ Spec.majorReleaseForm v)
    ∧ (Spec.noneMatches item -> severityHint source = Some low ->
       version item = Some "v2.0.0" -> Scorer.severity scoring = medium)
    ∧ (Spec.anyMatches Scorer.CRITICAL_KEYWORDS item -> prerelease item = true ->
       Scorer.severity scoring = high).
Proof.
  destruct (baseSeverity_reasons
              (Scorer.mkMatches (Spec.matched Scorer.CRITICAL_KEYWORDS item)
                 (Spec.matched Scorer.HIGH_KEYWORDS item)
                 (Spec.matched Scorer.MEDIUM_KEYWORDS item)
                 (Spec.matched Scorer.LOW_KEYWORDS item)) source) as (f & more & _).
  eexists _, _. split; [apply collectMatches_matched |].
  split; [unfold Scorer.scoreItem; by rewrite collectMatches_matched |].
  assert (Hsev : ∀ base,
             Scorer.severity
               (Scorer.finish
                  (Scorer.prereleaseAdjust item (Scorer.versionAdjust item base)))
             = if prerelease item
               then Spec.deescalate
                      (if Scorer.isMajorVersion item
                       then Spec.escalate (fst base) else fst base)
               else if Scorer.isMajorVersion item
                    then Spec.escalate (fst base) else fst base).
  { intros base. unfold Scorer.finish. cbn [Scorer.severity].
    by rewrite prereleaseAdjust_severity, versionAdjust_severity. }
  split_and!.
  - cbv zeta. apply Hsev.
  - apply isMajorVersion_iff.
  - intros (Hc%nonEmpty_matched_false & Hh%nonEmpty_matched_false
            & Hm%nonEmpty_matched_false & Hl%nonEmpty_matched_false) Hhint Hv.
    rewrite Hsev. unfold Scorer.baseSeverity, Scorer.isMajorVersion.
    cbn [Scorer.m_critical Scorer.m_high Scorer.m_medium Scorer.m_low].
    rewrite Hc, Hh, Hm, Hl, Hhint, Hv.
    by destruct (prerelease item).
  - intros Hc%nonEmpty_matched Hpre.
    rewrite Hsev, Hpre. unfold Scorer.baseSeverity.
    cbn [Scorer.m_critical]. rewrite Hc.
    by destruct (Scorer.isMajorVersion item).
Qed.

(** C9.  [scoreItem] always returns, and the reasons it returns are between
    one and three distinct entries: the first three distinct ones of the
    base reasons followed by the labels of the adjustments.  Their head is
    "default from source" when no keyword of any tier matches, and a matched
    keyword otherwise. *)
Theorem scoreItem_reasons (item : Item) (source : Source) :
  ∃ matches scoring,
    Scorer.collectMatches item = Some matches
    ∧ Scorer.scoreItem item source = Some scoring
    ∧ 1 ≤ length (Scorer.reasons scoring) ≤ 3
    ∧ NoDup (Scorer.reasons scoring)
    ∧ (∃ versionLabel prereleaseLabel,
          Scorer.reasons scoring
          = take 3 (Scorer.distinct
                      (snd (Scorer.baseSeverity matches source)
                       ++ versionLabel ++ prereleaseLabel))
          ∧ (versionLabel = [] ∨ versionLabel = ["major version bump"])
          ∧ (prereleaseLabel = []
             ∨ prereleaseLabel = ["pre-release (reduced severity)"]))
    ∧ (Spec.noneMatches item ->
       head (Scorer.reasons scoring) = Some "default from source")
    ∧ (¬ Spec.noneMatches item ->
       ∃ phrase tier,
         tier ∈ [Scorer.CRITICAL_KEYWORDS; Scorer.HIGH_KEYWORDS;
                 Scorer.MEDIUM_KEYWORDS; Scorer.LOW_KEYWORDS]
         ∧ phrase ∈ Spec.matched tier item
         ∧ head (Scorer.reasons scoring) = Some phrase).
Proof.
  set (matches := Scorer.mkMatches (Spec.matched Scorer.CRITICAL_KEYWORDS item)
                    (Spec.matched Scorer.HIGH_KEYWORDS item)
                    (Spec.matched Scorer.MEDIUM_KEYWORDS item)
                    (Spec.matched Scorer.LOW_KEYWORDS item)).
  exists matches. eexists.
  split; [apply collectMatches_matched |].
  split; [unfold Scorer.scoreItem; by rewrite collectMatches_matched |].
  fold matches.
  destruct (baseSeverity_reasons matches source) as (f & more & Hbase).
  destruct (versionAdjust_reasons item (Scorer.baseSeverity matches source))
    as (vl & Hvl & Hv).
  destruct (prereleaseAdjust_reasons item
              (Scorer.versionAdjust item (Scorer.baseSeverity matches source)))
    as (pl & Hpl & Hp).
  set (adjusted := Scorer.prereleaseAdjust item
                     (Scorer.versionAdjust item (Scorer.baseSeverity matches source)))
    in *.
  assert (Hadj : adjusted = (fst adjusted, f :: more ++ vl ++ pl)).
  { destruct adjusted as [sev rs]. cbn [fst snd] in *.
    by rewrite Hpl, Hvl, Hbase, <- app_assoc. }
  rewrite Hadj.
  destruct (finish_reasons (fst adjusted) f (more ++ vl ++ pl)) as (Hlen & Hnd & Hhd).
  split; [exact Hlen |]. split; [exact Hnd |]. split_and!.
  - exists vl, pl. rewrite Hbase. split; [reflexivity | by split].
  - intros (Hc%nonEmpty_matched_false & Hh%nonEmpty_matched_false
            & Hm%nonEmpty_matched_false & Hl%nonEmpty_matched_false).
    rewrite Hhd. revert Hbase. unfold Scorer.baseSeverity. subst matches.
    cbn [Scorer.m_critical Scorer.m_high Scorer.m_medium Scorer.m_low].
    rewrite Hc, Hh, Hm, Hl. cbn [snd]. by intros [= <- _].
  - intros Hsome. rewrite Hhd. revert Hbase. unfold Scorer.baseSeverity.
    subst matches.
    cbn [Scorer.m_critical Scorer.m_high Scorer.m_medium Scorer.m_low].
    destruct (Scorer.nonEmpty (Spec.matched Scorer.CRITICAL_KEYWORDS item)) eqn:Hc;
      [|destruct (Scorer.nonEmpty (Spec.matched Scorer.HIGH_KEYWORDS item)) eqn:Hh;
        [|destruct (Scorer.nonEmpty (Spec.matched Scorer.MEDIUM_KEYWORDS item)) eqn:Hm;
          [|destruct (Scorer.nonEmpty (Spec.matched Scorer.LOW_KEYWORDS item)) eqn:Hl]]];
      cbn [snd]; intros Hbase.
    + exists f, Scorer.CRITICAL_KEYWORDS. rewrite Hbase.
      split_and!; [left | left | done].
    + exists f, Scorer.HIGH_KEYWORDS. rewrite Hbase.
      split_and!; [right; left | left | done].
    + exists f, Scorer.MEDIUM_KEYWORDS. rewrite Hbase.
      split_and!; [right; right; left | left | done].
    + exists f, Scorer.LOW_KEYWORDS. rewrite Hbase.
      split_and!; [right; right; right; left | left | done].
    + exfalso. apply Hsome. unfold Spec.noneMatches.
      by rewrite <- !nonEmpty_matched_false.
Qed.

(* ===================================================================== *)
(** * Properties of lib/cache.js *)
(* ===================================================================== *)

Section CacheFacts.
Import Cache.

Lemma foldl_push_filter {A} (P : A -> Prop) `{!∀ x, Decision (P x)}
    (l acc : list A) :
  foldl (fun acc x => if bool_decide (P x) then acc else acc ++ [x]) acc l
  = acc ++ filter (fun x => ¬ P x) l.
Proof.
  revert acc. induction l as [|x l IH]; intros acc; simpl.
  - by rewrite app_nil_r.
  - rewrite IH. case_bool_decide.
    + rewrite filter_cons_False; [done | naive_solver].
    + rewrite filter_cons_True by done. by rewrite <- app_assoc.
Qed.

Lemma filter_none {A} (P : A -> Prop) `{!∀ x, Decision (P x)} (l : list A) :
  (∀ x, x ∈ l -> ¬ P x) -> filter P l = [].
Proof.
  induction l as [|x l IH]; intros Hno; [done |].
  rewrite filter_cons_False by (apply Hno; left).
  apply IH. intros y Hy. apply Hno. by right.
Qed.

Lemma filter_all {A} (P : A -> Prop) `{!∀ x, Decision (P x)} (l : list A) :
  (∀ x, x ∈ l -> P x) -> filter P l = l.
Proof.
  induction l as [|x l IH]; intros Hall; [done |].
  rewrite filter_cons_True by (apply Hall; left).
  f_equal. apply IH. intros y Hy. apply Hall. by right.
Qed.

Lemma elem_of_add_ids (ids : list string) (seen : gset string) (i : string) :
  i ∈ foldl (fun seen id => {[id]} ∪ seen) seen ids ↔ i ∈ seen ∨ i ∈ ids.
Proof.
  revert seen. induction ids as [|j ids IH]; intros seen; simpl.
  - set_solver.
  - rewrite IH. set_solver.
Qed.

Lemma elem_of_addSeen (st : SourceState) (seen : gset string) (i : string) :
  i ∈ addSeen seen st ↔ i ∈ seen ∨ ∃ ids, seenIds st = Some ids ∧ i ∈ ids.
Proof.
  unfold addSeen. destruct (seenIds st) as [ids|].
  - rewrite elem_of_add_ids. naive_solver.
  - naive_solver.
Qed.

Lemma elem_of_foldl_addSeen (l : list SourceState) (seen : gset string) (i : string) :
  i ∈ foldl addSeen seen l
  ↔ i ∈ seen ∨ ∃ st ids, st ∈ l ∧ seenIds st = Some ids ∧ i ∈ ids.
Proof.
  revert seen. induction l as [|st l IH]; intros seen; simpl.
  - split; [auto | intros [?|(st & ids & Hin & _)]; [done | by inversion Hin]].
  - rewrite IH, elem_of_addSeen. split.
    + intros [[?|(ids & ? & ?)]|(st' & ids & ? & ? & ?)].
      * by left.
      * right. exists st, ids. split_and!; [left | done | done].
      * right. exists st', ids. split_and!; [by right | done | done].
    + intros [?|(st' & ids & Hin & ? & ?)]; [by left; left |].
      apply elem_of_cons in Hin as [->|Hin].
      * left. right. eauto.
      * right. eauto 6.
Qed.

Lemma elem_of_Object_values {A} (o : gmap string A) (v : A) :
  v ∈ Object_values o ↔ ∃ k, o !! k = Some v.
Proof.
  unfold Object_values. rewrite list_elem_of_fmap. split.
  - intros ([k v'] & -> & Hin). exists k. by apply elem_of_map_to_list in Hin.
  - intros [k Hk]. exists (k, v). split; [done |]. by apply elem_of_map_to_list.
Qed.

(** The set built by the loop of [getNewItems] holds exactly the ids listed
    by some source that has a [seenIds] field. *)
Lemma elem_of_previouslySeen (S : State) (i : string) :
  i ∈ previouslySeen S
  ↔ ∃ k st ids, sources S !! k = Some st ∧ seenIds st = Some ids ∧ i ∈ ids.
Proof.
  unfold previouslySeen. rewrite elem_of_foldl_addSeen. split.
  - intros [Hin|(st & ids & Hin & ? & ?)]; [set_solver |].
    apply elem_of_Object_values in Hin as [k Hk]. eauto 6.
  - intros (k & st & ids & Hk & ? & ?). right. exists st, ids.
    split_and!; [|done|done]. apply elem_of_Object_values. eauto.
Qed.

Lemma elem_of_seenUnion (S : State) (i : string) :
  i ∈ Spec.seenUnion S
  ↔ ∃ k st ids, sources S !! k = Some st ∧ seenIds st = Some ids ∧ i ∈ ids.
Proof.
  unfold Spec.seenUnion. rewrite elem_of_union_list. split.
  - intros (X & HX & Hi). apply list_elem_of_fmap in HX as (st & -> & Hst).
    apply elem_of_Object_values in Hst as [k Hk].
    destruct (seenIds st) as [ids|] eqn:E; simpl in Hi; [|set_solver].
    apply elem_of_list_to_set in Hi. eauto 6.
  - intros (k & st & ids & Hk & E & Hi).
    exists (list_to_set (default [] (seenIds st))). split.
    + apply list_elem_of_fmap. exists st. split; [done |].
      apply elem_of_Object_values. eauto.
    + rewrite E. simpl. by apply elem_of_list_to_set.
Qed.

Lemma previouslySeen_seenUnion (S : State) : previouslySeen S = Spec.seenUnion S.
Proof.
  apply set_eq. intros i. by rewrite elem_of_previouslySeen, elem_of_seenUnion.
Qed.

Lemma getNewItems_initialized (B : list ScoredItem) (S : State) :
  initialized S = true -> getNewItems B S = mkDiff (Spec.diff B S) false.
Proof.
  intros Hinit. unfold getNewItems, Spec.diff. rewrite Hinit. simpl.
  rewrite (foldl_push_filter (fun scored => id (item scored) ∈ previouslySeen S)).
  simpl. by rewrite previouslySeen_seenUnion.
Qed.

(** ** The grouping of [updateState] *)

Definition fromSource (k : string) (B : list ScoredItem) : list ScoredItem :=
  filter (fun scored => source (item scored) = k) B.

Lemma groupItem_lookup (g g' : gmap string (list ScoredItem)) (x : ScoredItem) (k : string) :
  groupItem g x = Normal g' ->
  g' !! k = if decide (source (item x) = k)
            then Some (default [] (g !! k) ++ [x])
            else g !! k.
Proof.
  unfold groupItem. intros H.
  destruct (g !! source (item x)) as [items|] eqn:E.
  - injection H as <-. case_decide as Hk.
    + subst k. by rewrite lookup_insert_eq, E.
    + by rewrite lookup_insert_ne.
  - destruct (inherited (source (item x))); [discriminate |].
    injection H as <-. case_decide as Hk.
    + subst k. by rewrite lookup_insert_eq, E.
    + by rewrite lookup_insert_ne.
Qed.

(** After the grouping, the entry of a source lists the items of the batch
    that come from this source, in the order of the batch. *)
Lemma groupBySource_lookup (B : list ScoredItem) (g g' : gmap string (list ScoredItem))
    (k : string) :
  groupBySource g B = Normal g' ->
  g' !! k = match fromSource k B with
            | [] => g !! k
            | _ :: _ => Some (default [] (g !! k) ++ fromSource k B)
            end.
Proof.
  revert g. induction B as [|x B IH]; intros g H; simpl in H.
  - injection H as <-. done.
  - destruct (groupItem g x) as [g1|e] eqn:E1; [|discriminate].
    rewrite (IH _ H), (groupItem_lookup _ _ _ k E1). unfold fromSource.
    case_decide as Hk.
    + rewrite filter_cons_True by done. simpl.
      destruct (filter _ B); [done |]. by rewrite <- app_assoc.
    + rewrite filter_cons_False by done. done.
Qed.

Lemma groupBySource_returns (B : list ScoredItem) (g : gmap string (list ScoredItem)) :
  Forall (fun scored => inherited (source (item scored)) = false) B ->
  ∃ g', groupBySource g B = Normal g'.
Proof.
  intros HB. revert g. induction HB as [|x B Hx _ IH]; intros g; simpl.
  - eauto.
  - unfold groupItem. rewrite Hx. destruct (g !! source (item x)); apply IH.
Qed.

(** The snapshot lists, under its source, the id of every item of the batch. *)
Lemma updateState_sources (clock : option string -> string) (B : list ScoredItem)
    (S : State) (k : string) :
  updateState clock B = Normal S ->
  initialized S = true
  ∧ sources S !! k
    = match fromSource k B with
      | [] => None
      | items => Some (sourceEntry (clock (Some k)) items)
      end.
Proof.
  unfold updateState. destruct (groupBySource ∅ B) as [g|e] eqn:E; [|discriminate].
  intros H. injection H as <-. simpl. split; [done |].
  rewrite map_lookup_imap, (groupBySource_lookup _ _ _ k E), lookup_empty.
  by destruct (fromSource k B).
Qed.

(** The round trip of snapshot and diff, for a batch whose snapshot is
    built. *)
Lemma updateState_getNewItems (clock : option string -> string)
    (B : list ScoredItem) (S : State) :
  updateState clock B = Normal S -> getNewItems B S = mkDiff [] false.
Proof.
  intros HS.
  destruct (updateState_sources clock B S (EmptyString) HS) as [Hinit _].
  rewrite (getNewItems_initialized _ _ Hinit). f_equal.
  unfold Spec.diff. apply filter_none. intros x Hx Hnot.
  apply Hnot, elem_of_seenUnion.
  destruct (updateState_sources clock B S (source (item x)) HS) as [_ Hk].
  assert (Hin : x ∈ fromSource (source (item x)) B)
    by (by apply list_elem_of_filter).
  destruct (fromSource (source (item x)) B) as [|y items] eqn:E;
    [by inversion Hin |].
  eexists _, _, _. split_and!; [exact Hk | reflexivity |].
  apply list_elem_of_fmap. by exists x.
Qed.

(** The snapshot is built for every batch none of whose sources is named
    like a member of [Object.prototype]. *)
Lemma updateState_returns (clock : option string -> string) (B : list ScoredItem) :
  Forall (fun scored => inherited (source (item scored)) = false) B ->
  ∃ S, updateState clock B = Normal S ∧ getNewItems B S = mkDiff [] false.
Proof.
  intros HB. destruct (groupBySource_returns B ∅ HB) as [g Hg].
  eexists. split.
  - unfold updateState. rewrite Hg. reflexivity.
  - eapply (updateState_getNewItems clock). unfold updateState. by rewrite Hg.
Qed.

(** The grouping never creates an entry under a name inherited from
    [Object.prototype]: the first item of such a source stops it. *)
Lemma groupBySource_throws (B : list ScoredItem) :
  ∀ g : gmap string (list ScoredItem),
    (∀ k, inherited k = true -> g !! k = None) ->
    Exists (fun scored => inherited (source (item scored)) = true) B ->
    groupBySource g B = Throw "TypeError".
Proof.
  induction B as [|x B IH]; intros g Hg HB; [by inversion HB |].
  cbn [groupBySource]. unfold groupItem.
  destruct (inherited (source (item x))) eqn:Hx.
  - by rewrite (Hg _ Hx).
  - apply Exists_cons in HB as [HB|HB]; [congruence |].
    destruct (g !! source (item x)) as [items|] eqn:E; apply IH; try done.
    all: intros k Hk; rewrite lookup_insert_ne; [by apply Hg | congruence].
Qed.

End CacheFacts.

(** ** The watermark store against its specification *)

(** C1.  The diff against a previous state: an uninitialized state gives no
    new item and [isFirstRun = true], whatever the batch; an initialized one
    gives [isFirstRun = false] and the items of the batch, in the order of
    the batch, whose id is in no [seenIds] set of the state. *)
Theorem getNewItems_diff (B : list ScoredItem) (S : Cache.State) :
  Cache.getNewItems B S
  = if Cache.initialized S
    then Cache.mkDiff
           (filter (fun scored => id (item scored) ∉ Spec.seenUnion S) B) false
    else Cache.mkDiff [] true.
Proof.
  destruct (Cache.initialized S) eqn:Hinit.
  - by apply getNewItems_initialized.
  - unfold Cache.getNewItems. by rewrite Hinit.
Qed.

Definition fromConstructor : ScoredItem :=
  mkScoredItem
    (mkItem "1f3a" "Release 1.2.3" "https://example.org/r/1" "notes" 0
       "constructor" None false)
    low 1 ["default from source"] "app" "Example".

(** C2.  The round trip of snapshot and diff does not hold for every
    batch: when some item of the batch comes from a source named like a
    member of [Object.prototype] ([constructor], [toString], ...),
    [updateState] throws and returns no snapshot.  The grouping reads the
    inherited member through the object literal, finds it truthy, and calls
    its missing [push].  (For every other batch the round trip holds:
    [updateState_returns].) *)
Theorem updateState_throws (clock : option string -> string)
    (B : list ScoredItem) (scored : ScoredItem) :
  scored ∈ B ->
  source (item scored) ∈ Cache.Object_prototype ->
  Cache.updateState clock B = Cache.Throw "TypeError".
Proof.
  intros Hin Hproto. unfold Cache.updateState.
  rewrite groupBySource_throws; [done | by intros k _; apply lookup_empty |].
  apply Exists_exists. exists scored. split; [done |].
  unfold Cache.inherited. by apply bool_decide_eq_true.
Qed.

Lemma updateState_throws_witness :
  Cache.updateState (fun _ => "2024-05-01T00:00:00.000Z") [fromConstructor]
  = Cache.Throw "TypeError".
Proof.
  apply (updateState_throws _ [fromConstructor] fromConstructor).
  - left.
  - vm_compute. left.
Defined.

(** C10.  [getNewItems] returns on every initialized state, also when
    entries have no [seenIds] field (the guard skips them; nothing in the
    function can throw on such a state).  An entry without the field adds
    nothing to the seen set: the diff is the one of the state without this
    entry, an item whose id is listed by no entry that has the field is
    reported as new, and when no entry has the field the whole batch is
    new. *)
Theorem getNewItems_without_seenIds (B : list ScoredItem) (S : Cache.State)
    (k : string) (st : Cache.SourceState) :
  Cache.initialized S = true ->
  Cache.sources S !! k = Some st ->
  Cache.seenIds st = None ->
  Cache.getNewItems B S
  = Cache.getNewItems B
      (Cache.mkState (Cache.lastRun S) true (delete k (Cache.sources S)))
  ∧ Cache.isFirstRun (Cache.getNewItems B S) = false
  ∧ (∀ scored, scored ∈ B ->
       (∀ k' st' ids, k' ≠ k -> Cache.sources S !! k' = Some st' ->
                      Cache.seenIds st' = Some ids -> id (item scored) ∉ ids) ->
       scored ∈ Cache.newItems (Cache.getNewItems B S))
  ∧ ((∀ k' st', Cache.sources S !! k' = Some st' -> Cache.seenIds st' = None) ->
     Cache.newItems (Cache.getNewItems B S) = B).
Proof.
  intros Hinit Hk Hnone.
  rewrite (getNewItems_initialized B S Hinit).
  rewrite (getNewItems_initialized B (Cache.mkState _ true _) eq_refl).
  assert (Hsame : Spec.seenUnion S
                  = Spec.seenUnion
                      (Cache.mkState (Cache.lastRun S) true
                         (delete k (Cache.sources S)))).
  { apply set_eq. intros i. rewrite !elem_of_seenUnion. simpl. split.
    - intros (k' & st' & ids & Hk' & E & Hi). exists k', st', ids.
      split_and!; [|done|done].
      rewrite lookup_delete_ne; [done |]. intros <-. congruence.
    - intros (k' & st' & ids & Hk' & E & Hi). exists k', st', ids.
      split_and!; [|done|done].
      by apply lookup_delete_Some in Hk' as [_ ?]. }
  split_and!.
  - unfold Spec.diff. by rewrite <- Hsame.
  - done.
  - intros scored Hin Hfresh. simpl. unfold Spec.diff.
    apply list_elem_of_filter. split; [|done].
    rewrite elem_of_seenUnion. intros (k' & st' & ids & Hk' & E & Hi).
    destruct (decide (k' = k)) as [->|Hne]; [congruence |].
    by apply (Hfresh k' st' ids).
  - intros Hall. simpl. unfold Spec.diff. apply filter_all. intros x _.
    rewrite elem_of_seenUnion. intros (k' & st' & ids & Hk' & E & _).
    rewrite (Hall _ _ Hk') in E. discriminate.
Qed.

Definition stateWithBareEntry : Cache.State :=
  Cache.mkState (Some "2024-05-01T00:00:00.000Z") true
    (<["feed-a" := Cache.mkSourceState "2024-05-01T00:00:00.000Z" 2 None None]>
       (<["feed-b" := Cache.mkSourceState "2024-05-01T00:00:00.000Z" 1
                         (Some ["k9"]) None]> ∅)).

Definition batchOfTwo : list ScoredItem :=
  [ mkScoredItem (mkItem "x1" "First" "https://a/1" "d" 2 "feed-a" None false)
      low 1 ["default from source"] "app" "A";
    mkScoredItem (mkItem "k9" "Known" "https://b/1" "d" 1 "feed-b" None false)
      low 1 ["default from source"] "app" "B" ].

Lemma getNewItems_without_seenIds_witness :
  Cache.getNewItems batchOfTwo stateWithBareEntry
  = Cache.getNewItems batchOfTwo
      (Cache.mkState (Cache.lastRun stateWithBareEntry) true
         (delete "feed-a" (Cache.sources stateWithBareEntry)))
  ∧ Cache.isFirstRun (Cache.getNewItems batchOfTwo stateWithBareEntry) = false
  ∧ (∀ scored, scored ∈ batchOfTwo ->
       (∀ k' st' ids, k' ≠ "feed-a" ->
                      Cache.sources stateWithBareEntry !! k' = Some st' ->
                      Cache.seenIds st' = Some ids -> id (item scored) ∉ ids) ->
       scored ∈ Cache.newItems (Cache.getNewItems batchOfTwo stateWithBareEntry))
  ∧ ((∀ k' st', Cache.sources stateWithBareEntry !! k' = Some st' ->
                Cache.seenIds st' = None) ->
     Cache.newItems (Cache.getNewItems batchOfTwo stateWithBareEntry) = batchOfTwo).
Proof.
  apply (getNewItems_without_seenIds batchOfTwo stateWithBareEntry "feed-a"
           (Cache.mkSourceState "2024-05-01T00:00:00.000Z" 2 None None));
    reflexivity.
Defined.

(* ===================================================================== *)
(** * Properties of lib/fetchers.js *)
(* ===================================================================== *)

Section FetchFacts.
Import JsString Fetchers.

Variable resolveURL : string -> string -> option string.
Variable network : nat -> string -> Reply.

(** What [fetchUrl] settles with on a response that is not a redirect. *)
Definition settle (options : Options) (url : string) (statusCode : Z)
    (chunks : list string) : Outcome :=
  if bool_decide (statusCode ≠ 200%Z) then Rejected (HttpError statusCode url)
  else receive (orElseN (maxSize options) (5 * 1024 * 1024)) url chunks EmptyString 0.

Lemma fetchUrlFrom_terminal (fuel n : nat) (url : string) (options : Options)
    (statusCode : Z) (location : option string) (chunks : list string) :
  network n url = Response statusCode location chunks ->
  isRedirect statusCode = false ->
  fetchUrlFrom resolveURL network (S fuel) n url options
  = Some (settle options url statusCode chunks).
Proof.
  intros Hnet Hred. cbn [fetchUrlFrom]. rewrite Hnet, Hred.
  unfold settle. by destruct (bool_decide _).
Qed.

Lemma fetchUrlFrom_redirect (fuel n : nat) (url : string) (options : Options)
    (statusCode : Z) (location : string) (chunks : list string) (newUrl : string) :
  network n url = Response statusCode (Some location) chunks ->
  isRedirect statusCode = true ->
  location ≠ EmptyString ->
  Spec.target resolveURL url location = Some newUrl ->
  fetchUrlFrom resolveURL network (S fuel) n url options
  = if orElse (maxRedirects options) 5 <=? orElse (redirectCount options) 0
    then Some (Rejected (TooManyRedirects (orElse (maxRedirects options) 5) url))
    else fetchUrlFrom resolveURL network fuel (S n) newUrl
           (mkOptions (timeout options) (maxSize options) (maxRedirects options)
              (Some (orElse (redirectCount options) 0 + 1))).
Proof.
  intros Hnet Hred Hloc Htarget. cbn [fetchUrlFrom]. rewrite Hnet, Hred.
  destruct location as [|c location]; [done |]. cbn [truthy].
  unfold Spec.target in Htarget. rewrite Htarget. reflexivity.
Qed.

(** The requests [k .. k + n - 1] are answered by redirects along [hop]. *)
Definition redirectsFrom (hop : nat -> string) (k n : nat) : Prop :=
  ∀ j, k ≤ j < k + n ->
    ∃ statusCode location chunks,
      network j (hop j) = Response statusCode (Some location) chunks
      ∧ isRedirect statusCode = true
      ∧ location ≠ EmptyString
      ∧ Spec.target resolveURL (hop j) location = Some (hop (S j)).

Lemma redirectChain_redirectsFrom (hop : nat -> string) (n : nat) :
  Spec.redirectChain resolveURL network hop n -> redirectsFrom hop 0 n.
Proof.
  intros Hchain j [_ Hj]. destruct (Hchain j Hj) as (st & loc & ch & ? & ? & ? & ?).
  exists st, loc, ch. split_and!; try done.
  unfold isRedirect. by apply bool_decide_eq_true.
Qed.

Lemma redirectsFrom_tail (hop : nat -> string) (k n : nat) :
  redirectsFrom hop k (S n) -> redirectsFrom hop (S k) n.
Proof. intros H j Hj. apply H. lia. Qed.

Lemma orElse_succ (c fallback : nat) : orElse (Some (c + 1)) fallback = c + 1.
Proof. by rewrite Nat.add_1_r. Qed.

(** Within the budget, a chain of redirects is followed to its end. *)
Lemma fetchUrlFrom_follows (hop : nat -> string) (n : nat) :
  ∀ (fuel k : nat) (options : Options) (statusCode : Z)
    (location : option string) (chunks : list string),
    redirectsFrom hop k n ->
    network (k + n) (hop (k + n)) = Response statusCode location chunks ->
    isRedirect statusCode = false ->
    orElse (redirectCount options) 0 + n ≤ orElse (maxRedirects options) 5 ->
    n < fuel ->
    fetchUrlFrom resolveURL network fuel k (hop k) options
    = Some (settle options (hop (k + n)) statusCode chunks).
Proof.
  induction n as [|n IH]; intros fuel k options st loc ch Hchain Hend Hterm Hbudget Hfuel;
    (destruct fuel as [|fuel]; [lia |]).
  - rewrite Nat.add_0_r in *. by eapply fetchUrlFrom_terminal.
  - destruct (Hchain k) as (st' & loc' & ch' & Hnet & Hred & Hloc & Htarget); [lia |].
    rewrite (fetchUrlFrom_redirect _ _ _ _ _ _ _ _ Hnet Hred Hloc Htarget).
    destruct (Nat.leb_spec (orElse (maxRedirects options) 5)
                (orElse (redirectCount options) 0)) as [Hle|Hlt]; [lia |].
    replace (k + S n) with (S k + n) in * by lia.
    rewrite (IH fuel (S k) _ st loc ch); try done.
    + by apply redirectsFrom_tail.
    + cbn [redirectCount maxRedirects]. rewrite orElse_succ. lia.
    + lia.
Qed.

(** Past the budget, the fetch is rejected at the response that exhausts
    it. *)
Lemma fetchUrlFrom_too_many (hop : nat -> string) (d : nat) :
  ∀ (fuel k : nat) (options : Options),
    orElse (maxRedirects options) 5 - orElse (redirectCount options) 0 = d ->
    orElse (redirectCount options) 0 ≤ orElse (maxRedirects options) 5 ->
    redirectsFrom hop k (S d) ->
    d < fuel ->
    fetchUrlFrom resolveURL network fuel k (hop k) options
    = Some (Rejected (TooManyRedirects (orElse (maxRedirects options) 5) (hop (k + d)))).
Proof.
  induction d as [|d IH]; intros fuel k options Hd Hle Hchain Hfuel;
    (destruct fuel as [|fuel]; [lia |]);
    (destruct (Hchain k) as (st & loc & ch & Hnet & Hred & Hloc & Htarget); [lia |]);
    rewrite (fetchUrlFrom_redirect _ _ _ _ _ _ _ _ Hnet Hred Hloc Htarget);
    destruct (Nat.leb_spec (orElse (maxRedirects options) 5)
                (orElse (redirectCount options) 0)) as [Hge|Hlt]; try lia.
  - by rewrite Nat.add_0_r.
  - replace (k + S d) with (S k + d) by lia.
    rewrite (IH fuel (S k)).
    + reflexivity.
    + cbn [redirectCount maxRedirects]. rewrite orElse_succ. lia.
    + cbn [redirectCount maxRedirects]. rewrite orElse_succ. lia.
    + by apply redirectsFrom_tail.
    + lia.
Qed.

(** [fetchUrl] always settles: the fuel it starts with is never used up. *)
Lemma fetchUrlFrom_settles (fuel : nat) :
  ∀ (n : nat) (url : string) (options : Options),
    orElse (maxRedirects options) 5 - orElse (redirectCount options) 0 < fuel ->
    is_Some (fetchUrlFrom resolveURL network fuel n url options).
Proof.
  induction fuel as [|fuel IH]; intros n url options Hfuel; [lia |].
  cbn [fetchUrlFrom]. destruct (network n url) as [st loc ch| |]; [|eauto..].
  destruct (isRedirect st); [|destruct (bool_decide _); eauto].
  destruct loc as [loc|]; [|eauto]. destruct (truthy loc); [|eauto].
  destruct (Nat.leb_spec (orElse (maxRedirects options) 5)
              (orElse (redirectCount options) 0)) as [Hge|Hlt]; [eauto |].
  destruct (if startsWith "http" loc then Some loc else resolveURL loc url);
    [|eauto].
  apply IH. cbn [redirectCount maxRedirects]. rewrite orElse_succ. lia.
Qed.

Lemma fetchUrl_settles (url : string) (options : Options) :
  is_Some (fetchUrl resolveURL network url options).
Proof. apply fetchUrlFrom_settles. lia. Qed.

(** The body is delivered when it fits the cap, and refused otherwise. *)
Lemma receive_total (maxSize : N) (url : string) (chunks : list string) :
  ∀ (data : string) (size : N),
    (size <= maxSize)%N ->
    receive maxSize url chunks data size
    = if (maxSize <? size + N.of_nat (String.length (Spec.body chunks)))%N
      then Rejected (ResponseTooLarge maxSize url)
      else Resolved (data +:+ Spec.body chunks).
Proof.
  induction chunks as [|chunk chunks IH]; intros data size Hsize.
  - simpl. rewrite N.add_0_r, append_nil_r.
    by destruct (N.ltb_spec maxSize size); [lia |].
  - cbn [receive Spec.body foldr]. fold (Spec.body chunks).
    rewrite length_append, Nat2N.inj_add.
    destruct (N.ltb_spec maxSize (size + N.of_nat (String.length chunk))) as [Hover|Hfits].
    + by destruct (N.ltb_spec maxSize
                     (size + (N.of_nat (String.length chunk)
                              + N.of_nat (String.length (Spec.body chunks))))); [|lia].
    + rewrite (IH _ _ Hfits), N.add_assoc, append_assoc. done.
Qed.

End FetchFacts.

(** ** The retrieval primitive against its specification *)

Definition noOptions : Fetchers.Options := Fetchers.mkOptions None None None None.

Definition noResolution (relative base : string) : option string := None.

(** A server that answers every request with 204 and an empty body. *)
Definition noContent (n : nat) (url : string) : Fetchers.Reply :=
  Fetchers.Response 204 None [].

(** C6, as stated, fails: a terminal response with the 2xx status 204 is
    rejected with an HTTP-status error. *)
Lemma fetchUrl_rejects_204 :
  (200 ≤ 204 < 300)%Z
  ∧ Fetchers.isRedirect 204 = false
  ∧ Fetchers.fetchUrl noResolution noContent "https://example.org/feed" noOptions
    = Some (Fetchers.Rejected (Fetchers.HttpError 204 "https://example.org/feed")).
Proof. split; [lia |]. split; vm_compute; reflexivity. Qed.

(** C6, amended.  On a terminal response, that is one whose status is none
    of the redirects 301, 302, 307, 308, reached within the redirect budget,
    [fetchUrl] is rejected with an HTTP-status error for every status other
    than 200 (all non-2xx statuses, and the 2xx statuses other than 200);
    for status 200 it resolves with the body when the body fits the size
    cap, and is rejected as too large otherwise. *)
Theorem fetchUrl_terminal_response
    (resolveURL : string -> string -> option string)
    (network : nat -> string -> Fetchers.Reply) (hop : nat -> string) (n : nat)
    (options : Fetchers.Options) (statusCode : Z) (location : option string)
    (chunks : list string) :
  Spec.redirectChain resolveURL network hop n ->
  Fetchers.orElse (Fetchers.redirectCount options) 0 + n
  ≤ Fetchers.orElse (Fetchers.maxRedirects options) 5 ->
  network n (hop n) = Fetchers.Response statusCode location chunks ->
  Fetchers.isRedirect statusCode = false ->
  let maxSize := Fetchers.orElseN (Fetchers.maxSize options) (5 * 1024 * 1024) in
  Fetchers.fetchUrl resolveURL network (hop 0) options
  = Some (if bool_decide (statusCode = 200%Z)
          then if (N.of_nat (String.length (Spec.body chunks)) <=? maxSize)%N
               then Fetchers.Resolved (Spec.body chunks)
               else Fetchers.Rejected (Fetchers.ResponseTooLarge maxSize (hop n))
          else Fetchers.Rejected (Fetchers.HttpError statusCode (hop n))).
Proof.
  intros Hchain%redirectChain_redirectsFrom Hbudget Hnet Hred maxSize.
  unfold Fetchers.fetchUrl.
  rewrite (fetchUrlFrom_follows resolveURL network hop n _ 0 options statusCode
             location chunks); try done; [|lia].
  unfold settle. fold maxSize. f_equal. simpl.
  destruct (decide (statusCode = 200%Z)) as [->|Hne].
  - rewrite bool_decide_eq_false_2 by (intros H; by apply H).
    rewrite bool_decide_eq_true_2 by done.
    rewrite receive_total by lia. rewrite N.add_0_l. simpl String.append.
    destruct (N.ltb_spec maxSize (N.of_nat (String.length (Spec.body chunks))));
      destruct (N.leb_spec (N.of_nat (String.length (Spec.body chunks))) maxSize);
      try lia; reflexivity.
  - rewrite bool_decide_eq_true_2 by done. by rewrite bool_decide_eq_false_2.
Qed.

(** A server that redirects the k-th request to the URL numbered [k + 1],
    up to request [n], which it answers with a feed. *)
Definition numbered (k : nat) : string :=
  "https://example.org/" +:+ String (ascii_of_nat (48 + k)) EmptyString.

Definition redirecting (n k : nat) (url : string) : Fetchers.Reply :=
  if k <? n then Fetchers.Response 302 (Some (numbered (S k))) []
  else Fetchers.Response 200 None ["<rss>"; "</rss>"].

(** C7.  With a budget of five redirects, a chain of six redirects is
    rejected as too many at the sixth redirect, and a chain of five
    redirects that ends in a 200 response resolves with the body of that
    response (when it fits the size cap). *)
Theorem fetchUrl_redirect_budget
    (resolveURL : string -> string -> option string)
    (network : nat -> string -> Fetchers.Reply) (hop : nat -> string)
    (options : Fetchers.Options) :
  Fetchers.orElse (Fetchers.maxRedirects options) 5 = 5 ->
  Fetchers.orElse (Fetchers.redirectCount options) 0 = 0 ->
  (Spec.redirectChain resolveURL network hop 6 ->
   Fetchers.fetchUrl resolveURL network (hop 0) options
   = Some (Fetchers.Rejected (Fetchers.TooManyRedirects 5 (hop 5))))
  ∧ (∀ location chunks,
        Spec.redirectChain resolveURL network hop 5 ->
        network 5 (hop 5) = Fetchers.Response 200 location chunks ->
        (N.of_nat (String.length (Spec.body chunks))
         <= Fetchers.orElseN (Fetchers.maxSize options) (5 * 1024 * 1024))%N ->
        Fetchers.fetchUrl resolveURL network (hop 0) options
        = Some (Fetchers.Resolved (Spec.body chunks))).
Proof.
  intros Hmax Hcount. unfold Fetchers.fetchUrl. rewrite Hmax, Hcount. split.
  - intros Hchain%redirectChain_redirectsFrom.
    rewrite (fetchUrlFrom_too_many resolveURL network hop 5);
      rewrite ?Hmax, ?Hcount; try done; lia.
  - intros location chunks Hchain%redirectChain_redirectsFrom Hend Hfits.
    rewrite (fetchUrlFrom_follows resolveURL network hop 5 _ 0 options 200
               location chunks);
      rewrite ?Hmax, ?Hcount; try done; try lia.
    unfold settle. rewrite bool_decide_eq_false_2 by (intros H; by apply H).
    rewrite receive_total by lia. rewrite N.add_0_l. simpl String.append.
    by destruct (N.ltb_spec
                   (Fetchers.orElseN (Fetchers.maxSize options) (5 * 1024 * 1024))
                   (N.of_nat (String.length (Spec.body chunks)))); [lia |].
Qed.

Lemma redirecting_chain (n : nat) :
  n ≤ 9 -> Spec.redirectChain noResolution (redirecting n) numbered n.
Proof.
  intros Hn k Hk. exists 302%Z, (numbered (S k)), [].
  unfold redirecting. destruct (Nat.ltb_spec k n) as [_|?]; [|lia].
  split_and!; [reflexivity | right; left | discriminate | reflexivity].
Defined.

Lemma fetchUrl_terminal_response_witness :
  Fetchers.fetchUrl noResolution (redirecting 2) (numbered 0) noOptions
  = Some (Fetchers.Resolved "<rss></rss>").
Proof.
  refine (fetchUrl_terminal_response noResolution (redirecting 2) numbered 2
            noOptions 200 None ["<rss>"; "</rss>"] _ _ eq_refl eq_refl).
  - apply redirecting_chain. lia.
  - vm_compute. lia.
Defined.

Lemma fetchUrl_redirect_budget_witness :
  Fetchers.fetchUrl noResolution (redirecting 6) (numbered 0) noOptions
  = Some (Fetchers.Rejected (Fetchers.TooManyRedirects 5 (numbered 5)))
  ∧ Fetchers.fetchUrl noResolution (redirecting 5) (numbered 0) noOptions
    = Some (Fetchers.Resolved "<rss></rss>").
Proof.
  split.
  - apply (fetchUrl_redirect_budget noResolution (redirecting 6) numbered noOptions
             eq_refl eq_refl).
    apply redirecting_chain. lia.
  - apply (proj2 (fetchUrl_redirect_budget noResolution (redirecting 5) numbered
                    noOptions eq_refl eq_refl) None ["<rss>"; "</rss>"]).
    + apply redirecting_chain. lia.
    + reflexivity.
    + vm_compute. discriminate.
Defined.

(** ** The feed parser *)

Section ParseFacts.
Import JsString RegExp Fetchers.

Definition shorter (s : string) (r : option (option string * string)) : Prop :=
  ∀ res, r = Some res -> String.length (snd res) ≤ String.length s.

Section Repetition.
Variable ic : bool.
Variable cs : charset.
Variable k : option ascii -> string -> option (option string * string).
Hypothesis k_shorter : ∀ prev s, shorter s (k prev s).

Lemma greedy_shorter (prev : option ascii) (s : string) :
  shorter s (greedy ic cs k prev s).
Proof using k_shorter.
  revert prev. induction s as [|c s IH]; intros prev res; simpl.
  - apply k_shorter.
  - destruct (csMatch ic cs c); [|apply k_shorter].
    destruct (greedy ic cs k (Some c) s) eqn:E.
    + intros [= <-]. specialize (IH (Some c) _ E). lia.
    + apply k_shorter.
Qed.

Lemma lazy_shorter (prev : option ascii) (s : string) :
  shorter s (lazy ic cs k prev s).
Proof using k_shorter.
  revert prev. induction s as [|c s IH]; intros prev res; simpl.
  - destruct (k prev EmptyString) eqn:E; [|done]. intros [= <-].
    by apply (k_shorter prev EmptyString).
  - destruct (k prev (String c s)) eqn:E.
    + intros [= <-]. by apply (k_shorter prev (String c s)).
    + destruct (csMatch ic cs c); [|done]. intros H.
      specialize (IH (Some c) _ H). lia.
Qed.

Lemma rep_shorter (q : quant) (prev : option ascii) (s : string) :
  shorter s (rep ic cs k q prev s).
Proof using k_shorter.
  destruct q; simpl.
  - destruct s as [|c s]; [done |]. destruct (csMatch ic cs c); [|done].
    intros res H. specialize (k_shorter (Some c) s _ H). simpl. lia.
  - destruct s as [|c s]; [apply k_shorter |].
    destruct (csMatch ic cs c); [|apply k_shorter].
    destruct (k (Some c) s) eqn:E; [|apply k_shorter].
    intros res [= <-]. specialize (k_shorter (Some c) s _ E). simpl. lia.
  - apply greedy_shorter.
  - destruct s as [|c s]; [done |]. destruct (csMatch ic cs c); [|done].
    intros res H. pose proof (greedy_shorter (Some c) s _ H). simpl. lia.
  - apply lazy_shorter.
Qed.

(** A mandatory character consumes input. *)
Lemma rep_One_progress (prev : option ascii) (s : string)
    (res : option string * string) :
  rep ic cs k One prev s = Some res -> String.length (snd res) < String.length s.
Proof using k_shorter.
  simpl. destruct s as [|c s]; [done |]. destruct (csMatch ic cs c); [|done].
  intros H. specialize (k_shorter (Some c) s _ H). simpl. lia.
Qed.

End Repetition.

Lemma matchNodes_shorter (ic : bool) (ns : list node) :
  ∀ cap prev s, shorter s (matchNodes ic ns cap prev s).
Proof.
  induction ns as [|n ns IH]; intros cap prev s.
  - intros res [= <-]. done.
  - destruct n as [| |capture q cs]; cbn [matchNodes].
    + destruct prev; [done | apply IH].
    + destruct (xorb _ _); [apply IH | done].
    + apply rep_shorter. intros prev' s'. apply IH.
Qed.

Lemma matchNodes_progress (ic : bool) (capture : bool) (cs : charset)
    (ns : list node) (cap : option string) (prev : option ascii) (s : string)
    (res : option string * string) :
  matchNodes ic (NRep capture One cs :: ns) cap prev s = Some res ->
  String.length (snd res) < String.length s.
Proof.
  cbn [matchNodes]. apply rep_One_progress.
  intros prev' s'. apply matchNodes_shorter.
Qed.

(** A match of a pattern that starts with a mandatory character ends
    strictly further in the text. *)
Lemma search_progress (ic : bool) (capture : bool) (cs : charset) (ns : list node) :
  ∀ prev s m,
    search ic (NRep capture One cs :: ns) prev s = Some m ->
    String.length (rest m) < String.length s.
Proof.
  intros prev s. revert prev. induction s as [|c s IH]; intros prev m.
  - simpl. done.
  - rewrite search_String.
    destruct (matchNodes ic (NRep capture One cs :: ns) None prev (String c s))
      as [[cap r]|] eqn:E.
    + intros [= <-]. apply matchNodes_progress in E. done.
    + destruct (search ic (NRep capture One cs :: ns) (Some c) s) as [m'|] eqn:E';
        [|done].
      intros [= <-]. specialize (IH _ _ E'). simpl. lia.
Qed.

(** A match ends no further than the text, and strictly inside it when it is
    not empty. *)
Lemma search_shorter (ic : bool) (ns : list node) :
  ∀ prev s m,
    search ic ns prev s = Some m ->
    String.length (rest m) ≤ String.length s
    ∧ (truthy (matched m) = true -> String.length (rest m) < String.length s).
Proof.
  assert (Hhere : ∀ s r, String.length r ≤ String.length s ->
                         truthy (consumed s r) = true ->
                         String.length r < String.length s).
  { intros s r Hle. unfold consumed.
    destruct (String.length s - String.length r) eqn:E; [by destruct s | lia]. }
  intros prev s. revert prev. induction s as [|c s IH]; intros prev m.
  - simpl. destruct (matchNodes ic ns None prev EmptyString) as [[cap r]|] eqn:E;
      [|done].
    intros [= <-]. cbn [rest matched].
    pose proof (matchNodes_shorter ic ns None prev EmptyString _ E) as Hle.
    split; [done | by apply Hhere].
  - rewrite search_String.
    destruct (matchNodes ic ns None prev (String c s)) as [[cap r]|] eqn:E.
    + intros [= <-]. cbn [rest matched].
      pose proof (matchNodes_shorter ic ns None prev (String c s) _ E) as Hle.
      split; [done | by apply Hhere].
    + destruct (search ic ns (Some c) s) as [m'|] eqn:E'; [|done].
      intros [= <-]. destruct (IH _ _ E') as [Hle Hlt]. cbn [skipChar rest matched].
      split; [simpl; lia |]. intros Hm. specialize (Hlt Hm). simpl. lia.
Qed.

(** The fuel of [replace] is not exhausted either. *)
Lemma replaceFrom_fuel (re : regex) (f : string -> string) (fuel1 : nat) :
  ∀ fuel2 prev s,
    String.length s < fuel1 -> String.length s < fuel2 ->
    replaceFrom fuel1 re f prev s = replaceFrom fuel2 re f prev s.
Proof.
  induction fuel1 as [|fuel1 IH]; intros fuel2 prev s H1 H2; [lia |].
  destruct fuel2 as [|fuel2]; [lia |]. cbn [replaceFrom].
  destruct (search (ignoreCase re) (nodes re) prev s) as [m|] eqn:E; [|done].
  destruct (search_shorter _ _ _ _ _ E) as [Hle Hlt].
  do 2 f_equal. destruct (truthy (matched m)) eqn:Hm.
  - specialize (Hlt eq_refl). apply IH; lia.
  - destruct (rest m) as [|c r] eqn:Hr; [done |]. f_equal.
    simpl in Hle. apply IH; lia.
Qed.

(** The fuel of the entry loop is not exhausted: any fuel above the length
    of the text gives the same blocks. *)
Lemma blocksFrom_fuel (fuel1 : nat) :
  ∀ fuel2 prev xml,
    String.length xml < fuel1 -> String.length xml < fuel2 ->
    Spec.blocksFrom fuel1 prev xml = Spec.blocksFrom fuel2 prev xml.
Proof.
  induction fuel1 as [|fuel1 IH]; intros fuel2 prev xml H1 H2; [lia |].
  destruct fuel2 as [|fuel2]; [lia |]. cbn [Spec.blocksFrom].
  destruct (search true (nodes itemRegex) prev xml) as [m|] eqn:E; [|done].
  f_equal. apply search_progress in E. apply IH; lia.
Qed.

Section Loop.
Variable Date_parse : string -> Z.
Variable Date_now : Z.

(** The loop of [parseRSS] keeps, of the entry blocks it meets, those that
    pass the guard, until it holds [maxItems] of them. *)
Lemma parseLoop_blocks (fuel : nat) :
  ∀ prev xml count items,
    count ≤ maxItems ->
    parseLoop Date_parse Date_now fuel prev xml count items
    = items
      ++ (toEntry Date_parse Date_now
            <$> take (maxItems - count)
                  (filter (fun raw => kept raw = true)
                     (readEntry <$> Spec.blocksFrom fuel prev xml))).
Proof.
  assert (Hnone : ∀ n (items : list FeedEntry),
             items ++ (toEntry Date_parse Date_now
                         <$> take n (filter (fun raw => kept raw = true)
                                       (readEntry <$> [])))
             = items).
  { intros n items. by rewrite fmap_nil, filter_nil, take_nil, fmap_nil, app_nil_r. }
  induction fuel as [|fuel IH]; intros prev xml count items Hcount.
  - cbn [parseLoop Spec.blocksFrom]. by rewrite Hnone.
  - cbn [parseLoop Spec.blocksFrom].
    destruct (search _ _ prev xml) as [m|]; [|by rewrite Hnone].
    destruct (Nat.ltb_spec count maxItems) as [Hlt|Hge].
    + rewrite fmap_cons.
      destruct (kept (readEntry (default EmptyString (group1 m)))) eqn:Hkept.
      * rewrite IH by lia. rewrite filter_cons_True by done.
        replace (maxItems - count) with (S (maxItems - S count)) by lia.
        rewrite firstn_cons, fmap_cons. by rewrite <- app_assoc.
      * rewrite IH by lia. rewrite filter_cons_False; [done | congruence].
    + replace (maxItems - count) with 0 by lia. by rewrite take_0, app_nil_r.
Qed.

End Loop.

Lemma kept_iff (raw : RawEntry) :
  kept raw = true ↔ rawTitle raw ≠ EmptyString ∧ rawLink raw ≠ EmptyString.
Proof.
  unfold kept. rewrite andb_true_iff.
  destruct (rawTitle raw), (rawLink raw); simpl; naive_solver.
Qed.

End ParseFacts.

(** C8, as stated, fails: an entry that has a title and no link is
    dropped. *)
Lemma parseRSS_drops_entry_without_link :
  Fetchers.rawTitle (Fetchers.readEntry "<title>Release 2.0</title>") = "Release 2.0"
  ∧ Spec.entryBlocks "<item><title>Release 2.0</title></item>"
    = ["<title>Release 2.0</title>"]
  ∧ Fetchers.parseRSS (fun _ => 0%Z) 0%Z "<item><title>Release 2.0</title></item>"
    = [].
Proof. split_and!; vm_compute; reflexivity. Qed.

(** C8, amended.  A parsed feed entry is kept exactly when it has both a
    title and a link; an entry that misses either of them is dropped.  The
    result of [parseRSS] is made of the first twenty kept entries, in the
    order of the feed. *)
Theorem parseRSS_keeps_titled_and_linked (Date_parse : string -> Z) (Date_now : Z)
    (xml : string) :
  Fetchers.parseRSS Date_parse Date_now xml
  = Fetchers.toEntry Date_parse Date_now
      <$> take 20
            (filter (fun raw => Fetchers.rawTitle raw ≠ EmptyString
                                ∧ Fetchers.rawLink raw ≠ EmptyString)
               (Fetchers.readEntry <$> Spec.entryBlocks (Spec.feedText xml))).
Proof.
  unfold Fetchers.parseRSS. fold (Spec.feedText xml).
  rewrite parseLoop_blocks by (unfold Fetchers.maxItems; lia).
  rewrite app_nil_l, Nat.sub_0_r. unfold Spec.entryBlocks. f_equal. f_equal.
  apply list_filter_iff. intros raw. apply kept_iff.
Qed.

(* ===================================================================== *)
(** * lib/fetchers.js: identity hashing *)
(* ===================================================================== *)

Module Hash.
Import JsString.

(** ToInt32: the integer modulo 2^32, read as a signed 32-bit number. *)
Definition toInt32 (z : Z) : Z :=
  let m := (z mod 2 ^ 32)%Z in
  if (m <? 2 ^ 31)%Z then m else (m - 2 ^ 32)%Z.

(** [a << k] and [a & b] on numbers: the operands go through ToInt32. *)
Definition shl (a k : Z) : Z := toInt32 (Z.shiftl (toInt32 a) k).
Definition band (a b : Z) : Z := Z.land (toInt32 a) (toInt32 b).

(** [str.charCodeAt(i)] *)
Definition charCode (c : ascii) : Z := Z.of_N (code c).

(** The loop of [hashString], from the value [hash] over the rest of the
    string. *)
Fixpoint hashFrom (hash : Z) (str : string) : Z :=
  match str with
  | EmptyString => hash
  | String c str' =>
      let char := charCode c in
      let hash := (shl hash 5 - hash + char)%Z in
      let hash := band hash hash in
      hashFrom hash str'
  end.

(** The digit of [Number.prototype.toString(36)] for a value below 36. *)
Definition digit36 (d : Z) : ascii :=
  if (d <? 10)%Z then ascii_of_N (Z.to_N (48 + d)) else ascii_of_N (Z.to_N (87 + d)).

(** The digits of [n] in base 36, most significant first, before [acc]. *)
Fixpoint digits36 (fuel : nat) (n : Z) (acc : string) : string :=
  match fuel with
  | 0 => acc
  | S fuel' =>
      let acc := String (digit36 (n mod 36)) acc in
      if (n / 36 =? 0)%Z then acc else digits36 fuel' (n / 36)%Z acc
  end.

(** [n.toString(36)] for an integer [n >= 0]; a number has no more digits
    in base 36 than bits. *)
Definition toString36 (n : Z) : string :=
  digits36 (S (Z.to_nat (Z.log2 n))) n EmptyString.

(** [hashString(str)] *)
Definition hashString (str : string) : string :=
  toString36 (Z.abs (hashFrom 0 str)).

(** The value of a base-36 digit, and the number a token denotes. *)
Definition value36 (c : ascii) : Z :=
  if isDigit c then (Z.of_N (code c) - 48)%Z else (Z.of_N (code c) - 87)%Z.

Fixpoint parse36 (acc : Z) (s : string) : Z :=
  match s with
  | EmptyString => acc
  | String c s' => parse36 (36 * acc + value36 c)%Z s'
  end.

Definition isDigit36 (c : ascii) : bool := isDigit c || isLower c.

(** The hash as a polynomial in 31 over the character codes, before any
    wrap-around. *)
Fixpoint polynomial (h : Z) (str : string) : Z :=
  match str with
  | EmptyString => h
  | String c str' => polynomial (31 * h + charCode c)%Z str'
  end.

End Hash.

Section HashFacts.
Import JsString Hash.
Local Open Scope Z_scope.

Lemma toInt32_range (z : Z) : - 2 ^ 31 <= toInt32 z < 2 ^ 31.
Proof.
  unfold toInt32. pose proof (Z.mod_pos_bound z (2 ^ 32) eq_refl) as Hm.
  destruct (Z.ltb_spec (z mod 2 ^ 32) (2 ^ 31)); lia.
Qed.

(** ToInt32 differs from its argument by a multiple of 2^32. *)
Lemma toInt32_wraps (z : Z) : ∃ k, toInt32 z = z + k * 2 ^ 32.
Proof.
  unfold toInt32. pose proof (Z.div_mod z (2 ^ 32) ltac:(lia)) as Hz.
  destruct (Z.ltb_spec (z mod 2 ^ 32) (2 ^ 31)).
  - exists (- (z / 2 ^ 32)). lia.
  - exists (- (z / 2 ^ 32) - 1). lia.
Qed.

Lemma toInt32_add_multiple (z k : Z) : toInt32 (z + k * 2 ^ 32) = toInt32 z.
Proof. unfold toInt32. by rewrite Z_mod_plus_full. Qed.

Lemma toInt32_small (z : Z) : - 2 ^ 31 <= z < 2 ^ 31 -> toInt32 z = z.
Proof.
  intros Hz. destruct (toInt32_wraps z) as [k Hk].
  pose proof (toInt32_range z). nia.
Qed.

(** One round of the loop: [((hash << 5) - hash) + char], then [hash & hash],
    is [31 * hash + char] wrapped to 32 bits. *)
Lemma hash_round (hash char : Z) :
  band (shl hash 5 - hash + char) (shl hash 5 - hash + char)
  = toInt32 (31 * hash + char).
Proof.
  unfold band. rewrite Z.land_diag. unfold shl.
  rewrite Z.shiftl_mul_pow2 by lia.
  destruct (toInt32_wraps hash) as [k1 ->].
  destruct (toInt32_wraps ((hash + k1 * 2 ^ 32) * 2 ^ 5)) as [k2 ->].
  replace ((hash + k1 * 2 ^ 32) * 2 ^ 5 + k2 * 2 ^ 32 - hash + char)
    with (31 * hash + char + (32 * k1 + k2) * 2 ^ 32) by lia.
  apply toInt32_add_multiple.
Qed.

Lemma hashFrom_polynomial (str : string) :
  ∀ h h' k, h = h' + k * 2 ^ 32 -> - 2 ^ 31 <= h < 2 ^ 31 ->
            hashFrom h str = toInt32 (polynomial h' str).
Proof.
  induction str as [|c str IH]; intros h h' k Hk Hh.
  - simpl. subst h. rewrite Z.add_comm, Z.add_comm in Hh |- *.
    rewrite <- (toInt32_add_multiple h' k). by rewrite toInt32_small.
  - cbn [hashFrom polynomial]. rewrite hash_round.
    destruct (toInt32_wraps (31 * h + charCode c)) as [k' Hk'].
    apply (IH _ _ (k' + 31 * k)); [lia | apply toInt32_range].
Qed.

Lemma polynomial_append (a b : string) (h : Z) :
  polynomial h (a +:+ b) = polynomial (polynomial h a) b.
Proof. revert h. induction a as [|c a IH]; intros h; simpl; [done | apply IH]. Qed.

Lemma digit36_checked :
  forallb (fun d => (value36 (digit36 d) =? d) && isDigit36 (digit36 d))
    (Z.of_nat <$> seq 0 36) = true.
Proof. vm_compute. reflexivity. Qed.

Lemma digit36_spec (d : Z) :
  0 <= d < 36 -> value36 (digit36 d) = d ∧ isDigit36 (digit36 d) = true.
Proof.
  intros Hd. pose proof digit36_checked as Hall.
  rewrite forallb_forall in Hall. specialize (Hall d).
  rewrite andb_true_iff, Z.eqb_eq in Hall. apply Hall.
  apply list_elem_of_In, list_elem_of_fmap. exists (Z.to_nat d).
  split; [lia |]. apply elem_of_seq. lia.
Qed.

Lemma digits36_parse (fuel : nat) :
  ∀ n acc, 0 <= n < 2 ^ Z.of_nat fuel ->
           parse36 0 (digits36 fuel n acc) = parse36 n acc.
Proof.
  induction fuel as [|fuel IH]; intros n acc Hn.
  - simpl in *. by replace n with 0 by lia.
  - cbn [digits36]. pose proof (Z.mod_pos_bound n 36 eq_refl) as Hd.
    pose proof (Z.div_mod n 36 ltac:(lia)) as Hdiv.
    destruct (digit36_spec _ Hd) as [Hval _].
    destruct (Z.eqb_spec (n / 36) 0) as [Hz|Hnz].
    + cbn [parse36]. rewrite Hval. f_equal. lia.
    + rewrite IH.
      * cbn [parse36]. rewrite Hval. f_equal. lia.
      * split; [apply Z.div_pos; lia |].
        apply Z.div_lt_upper_bound; [lia |].
        rewrite Nat2Z.inj_succ, Z.pow_succ_r in Hn by lia. lia.
Qed.

Lemma digits36_alphabet (fuel : nat) :
  ∀ n acc, allChars isDigit36 acc = true ->
           allChars isDigit36 (digits36 fuel n acc) = true.
Proof.
  induction fuel as [|fuel IH]; intros n acc Hacc; [done |].
  cbn [digits36]. pose proof (Z.mod_pos_bound n 36 eq_refl) as Hd.
  destruct (digit36_spec _ Hd) as [_ Hdig].
  assert (Hacc' : allChars isDigit36 (String (digit36 (n mod 36)) acc) = true)
    by (simpl; by rewrite Hdig, Hacc).
  destruct (n / 36 =? 0); [done | by apply IH].
Qed.

Lemma digits36_length (fuel : nat) :
  ∀ (k : nat) n acc,
    0 <= n < 36 ^ Z.of_nat (S k) ->
    (String.length acc < String.length (digits36 (S fuel) n acc)
     ≤ S k + String.length acc)%nat.
Proof.
  induction fuel as [|fuel IH]; intros k n acc Hn; cbn [digits36].
  - destruct (n / 36 =? 0); simpl; lia.
  - destruct (Z.eqb_spec (n / 36) 0) as [Hz|Hnz]; [simpl; lia |].
    destruct k as [|k].
    + simpl in Hn. exfalso. apply Hnz. apply Z.div_small. lia.
    + specialize (IH k (n / 36) (String (digit36 (n mod 36)) acc)).
      cbn [digits36] in IH. simpl String.length in IH.
      assert (0 <= n / 36 < 36 ^ Z.of_nat (S k)).
      { split; [apply Z.div_pos; lia |]. apply Z.div_lt_upper_bound; [lia |].
        rewrite (Nat2Z.inj_succ (S k)), Z.pow_succ_r in Hn by lia. lia. }
      specialize (IH ltac:(done)). lia.
Qed.

Lemma toString36_parse (n : Z) : 0 <= n -> parse36 0 (toString36 n) = n.
Proof.
  intros Hn. unfold toString36. rewrite digits36_parse; [done |].
  split; [done |]. rewrite Nat2Z.inj_succ, Z2Nat.id by apply Z.log2_nonneg.
  destruct (Z.eq_dec n 0) as [->|Hne]; [done |].
  apply Z.log2_spec. lia.
Qed.

End HashFacts.

(** ** Identity hashing *)

(** X1.  The token [hashString] returns is 1 to 6 characters among
    [0-9a-z]; read in base 36 it is the absolute value of the 32-bit
    wrap-around of the polynomial in 31 over the character codes, at most
    2^31. *)
Theorem hashString_token (str : string) :
  1 ≤ String.length (Hash.hashString str) ≤ 6
  ∧ JsString.allChars Hash.isDigit36 (Hash.hashString str) = true
  ∧ Hash.parse36 0 (Hash.hashString str)
    = Z.abs (Hash.toInt32 (Hash.polynomial 0 str))
  ∧ (Hash.parse36 0 (Hash.hashString str) <= 2 ^ 31)%Z.
Proof.
  unfold Hash.hashString.
  rewrite (hashFrom_polynomial str 0 0 0) by (vm_compute; intuition congruence).
  pose proof (toInt32_range (Hash.polynomial 0 str)) as Hrange.
  set (n := Z.abs (Hash.toInt32 (Hash.polynomial 0 str))).
  assert (Hn : (0 <= n <= 2 ^ 31)%Z) by lia.
  assert (Hlen : String.length EmptyString
                 < String.length (Hash.toString36 n)
                 ≤ 6 + String.length EmptyString).
  { apply (digits36_length (Z.to_nat (Z.log2 n)) 5 n EmptyString).
    assert (H36 : (36 ^ Z.of_nat 6 = 2176782336)%Z) by reflexivity.
    assert (H31 : (2 ^ 31 = 2147483648)%Z) by reflexivity. lia. }
  simpl String.length in Hlen.
  split; [lia |]. split; [by apply digits36_alphabet |].
  rewrite toString36_parse by lia. split; [done | lia].
Qed.

(** X2.  Two strings get the same token exactly when their 32-bit hashes
    have the same absolute value: the base-36 rendering loses nothing. *)
Theorem hashString_equal_iff (a b : string) :
  Hash.hashString a = Hash.hashString b
  ↔ Z.abs (Hash.toInt32 (Hash.polynomial 0 a))
    = Z.abs (Hash.toInt32 (Hash.polynomial 0 b)).
Proof.
  unfold Hash.hashString.
  rewrite (hashFrom_polynomial a 0 0 0), (hashFrom_polynomial b 0 0 0)
    by (vm_compute; intuition congruence).
  split; [|by intros ->].
  intros Heq. apply (f_equal (Hash.parse36 0)) in Heq.
  by rewrite !toString36_parse in Heq by lia.
Qed.

(** X3.  Collisions are built at will: replacing an occurrence of "Aa" by
    "BB" anywhere in a string leaves its token unchanged. *)
Theorem hashString_collides (before after : string) :
  Hash.hashString (before +:+ "Aa" +:+ after)
  = Hash.hashString (before +:+ "BB" +:+ after).
Proof.
  unfold Hash.hashString.
  rewrite !(hashFrom_polynomial _ 0 0 0) by (vm_compute; intuition congruence).
  assert (Hsame : ∀ h, Hash.polynomial h "Aa" = Hash.polynomial h "BB").
  { intros h. cbn [Hash.polynomial].
    change (Hash.charCode "A") with 65%Z. change (Hash.charCode "a") with 97%Z.
    change (Hash.charCode "B") with 66%Z. lia. }
  by rewrite !polynomial_append, Hsame.
Qed.

(* ===================================================================== *)
(** * lib/fetchers.js: the feed variant *)
(* ===================================================================== *)

Module Feeds.
Import JsString Fetchers.

Section FetchRSS.

Variable resolveURL : string -> string -> option string.
Variable network : nat -> string -> Reply.
Variable Date_parse : string -> Z.
Variable Date_now : Z.

(** Lines 145-153: the item built from an entry of the feed.  The field
    [rawData], which no function reads, is left out. *)
Definition normalize (source : Source) (entry : FeedEntry) : Item :=
  mkItem (Hash.hashString (entryLink entry)) (entryTitle entry) (entryLink entry)
    (firstChars 500 (entryDescription entry)) (date entry) (sourceId source)
    None false.

(** Lines 137-142: the optional filter of the source. *)
Definition applyFilter (source : Source) (items : list FeedEntry) : list FeedEntry :=
  match sourceFilter source with
  | Some wanted =>
      if truthy wanted
      then List.filter
             (fun entry => includes (entryTitle entry) wanted
                           || includes (entryDescription entry) wanted)
             items
      else items
  | None => items
  end.

(** [fetchRSS(source)].  A rejected fetch is caught and gives the empty
    list; [None] stands for the run in which an exception left the response
    callback of [fetchUrl], where the function never returns. *)
Definition fetchRSS (source : Source) : option (list Item) :=
  match fetchUrl resolveURL network (sourceUrl source) (mkOptions None None None None) with
  | Some (Resolved xml) =>
      Some (normalize source <$> applyFilter source (parseRSS Date_parse Date_now xml))
  | Some (Rejected _) => Some []
  | Some Uncaught => None
  | None => None
  end.

End FetchRSS.

End Feeds.

Section FeedFacts.
Import JsString RegExp Fetchers Feeds.

Lemma length_firstChars (n : nat) (s : string) :
  String.length (firstChars n s) = n `min` String.length s.
Proof.
  revert s. induction n as [|n IH]; intros [|c s]; simpl; try done.
  by rewrite IH.
Qed.

Lemma firstChars_all (n : nat) (s : string) :
  String.length s ≤ n -> firstChars n s = s.
Proof.
  revert s. induction n as [|n IH]; intros [|c s] Hn; simpl in *; try done; [lia |].
  rewrite IH; [done | lia].
Qed.

(** A match splits the text into what is skipped, the match and the rest;
    the match of a pattern that starts with a mandatory character is not
    empty. *)
Lemma search_lengths (ic : bool) (ns : list node) :
  ∀ prev s m,
    search ic ns prev s = Some m ->
    String.length (skipped m) + String.length (matched m) + String.length (rest m)
    = String.length s
    ∧ (∀ capture cs ns', ns = NRep capture One cs :: ns' ->
                         0 < String.length (matched m)).
Proof.
  intros prev s. revert prev. induction s as [|c s IH]; intros prev m.
  - simpl. destruct (matchNodes ic ns None prev EmptyString) as [[cap r]|] eqn:E;
      [|done].
    intros [= <-]. cbn [skipped matched rest].
    pose proof (matchNodes_shorter ic ns None prev EmptyString _ E) as Hle.
    unfold consumed. rewrite length_firstChars. simpl in *. split; [lia |].
    intros capture cs ns' ->. apply matchNodes_progress in E. simpl in E. lia.
  - rewrite search_String.
    destruct (matchNodes ic ns None prev (String c s)) as [[cap r]|] eqn:E.
    + intros [= <-]. cbn [skipped matched rest].
      pose proof (matchNodes_shorter ic ns None prev (String c s) _ E) as Hle.
      unfold consumed. rewrite length_firstChars. simpl in *. split; [lia |].
      intros capture cs ns' ->. apply matchNodes_progress in E. simpl in E. lia.
    + destruct (search ic ns (Some c) s) as [m'|] eqn:E'; [|done].
      intros [= <-]. destruct (IH _ _ E') as [Hlen Hpos].
      cbn [skipChar skipped matched rest]. simpl. split; [lia | done].
Qed.

(** No match without the first character of the pattern. *)
Lemma search_without_first (ic : bool) (capture : bool) (cs : charset)
    (ns : list node) :
  ∀ prev s,
    allChars (fun c => negb (csMatch ic cs c)) s = true ->
    search ic (NRep capture One cs :: ns) prev s = None.
Proof.
  intros prev s. revert prev. induction s as [|c s IH]; intros prev Hs; [done |].
  simpl in Hs. apply andb_true_iff in Hs as [Hc Hs]. rewrite search_String.
  cbn [matchNodes rep]. apply negb_true_iff in Hc. rewrite Hc.
  by rewrite IH.
Qed.

(** A replacement that never lengthens a match never lengthens the text. *)
Lemma replaceFrom_length (re : regex) (f : string -> string) :
  (∀ m, String.length (f m) ≤ String.length m) ->
  ∀ fuel prev s,
    String.length (replaceFrom fuel re f prev s) ≤ String.length s.
Proof.
  intros Hf fuel. induction fuel as [|fuel IH]; intros prev s; [done |].
  cbn [replaceFrom].
  destruct (search (ignoreCase re) (nodes re) prev s) as [m|] eqn:E; [|done].
  destruct (search_lengths _ _ _ _ _ E) as [Hlen _].
  rewrite !length_append. specialize (Hf (matched m)).
  destruct (truthy (matched m)).
  - specialize (IH (before m) (rest m)). lia.
  - destruct (rest m) as [|c r]; [simpl in *; lia |].
    specialize (IH (Some c) r). simpl in *. lia.
Qed.

Definition decodeOne (m : string) : string := default m (lookupEntity entities m).

Lemma decodeOne_length (m : string) :
  String.length (decodeOne m) ≤ String.length m
  ∧ (m ≠ EmptyString -> decodeOne m ≠ EmptyString).
Proof.
  unfold decodeOne, entities, dquote. cbn [lookupEntity].
  repeat match goal with
         | |- context [String.eqb ?k m] =>
             destruct (String.eqb_spec k m) as [<-|_];
             [simpl; split; [lia | done] |]
         end.
  simpl. split; [lia | done].
Qed.

Lemma decodeHTMLEntities_length (text : string) :
  String.length (decodeHTMLEntities text) ≤ String.length text.
Proof.
  apply replaceFrom_length. intros m. apply decodeOne_length.
Qed.

Lemma decodeHTMLEntities_nonempty (text : string) :
  text ≠ EmptyString -> decodeHTMLEntities text ≠ EmptyString.
Proof.
  intros Htext. unfold decodeHTMLEntities, replace. cbn [replaceFrom].
  destruct (search (ignoreCase entityRegex) (nodes entityRegex) None text)
    as [m|] eqn:E; [|done].
  destruct (search_lengths _ _ _ _ _ E) as [_ Hpos].
  specialize (Hpos false (CsChar "&") _ eq_refl).
  fold (decodeOne (matched m)).
  destruct (decodeOne_length (matched m)) as [_ Hne].
  destruct (skipped m); [|done]. simpl.
  destruct (decodeOne (matched m)) eqn:Hd; [|done].
  exfalso. apply Hne; [|done]. intros Hm. rewrite Hm in Hpos. simpl in Hpos. lia.
Qed.

Lemma ampersand_char (c : ascii) :
  csMatch true (CsChar "&") c = Ascii.eqb "&" c.
Proof. every_char c; reflexivity. Qed.

End FeedFacts.

Section FeedItems.
Import JsString RegExp Fetchers Feeds.

Variable Date_parse : string -> Z.
Variable Date_now : Z.

(** What [parseRSS] returns: at most 20 entries, each with a title and a
    link that are not empty and a description of at most 500 characters. *)
Lemma parseRSS_entries (xml : string) :
  length (parseRSS Date_parse Date_now xml) ≤ 20
  ∧ Forall (fun entry =>
              entryTitle entry ≠ EmptyString
              ∧ entryLink entry ≠ EmptyString
              ∧ String.length (entryDescription entry) ≤ 500)
      (parseRSS Date_parse Date_now xml).
Proof.
  unfold parseRSS. rewrite parseLoop_blocks by (unfold maxItems; lia).
  rewrite app_nil_l, Nat.sub_0_r. split.
  - rewrite length_fmap, length_take. unfold maxItems. lia.
  - apply Forall_fmap, Forall_forall. intros raw Hraw.
    apply elem_of_take in Hraw as (i & Hraw & _).
    apply list_elem_of_lookup_2, list_elem_of_filter in Hraw as [Hkept _].
    apply kept_iff in Hkept as [Htitle Hlink]. cbn [compose toEntry entryTitle
      entryLink entryDescription]. split_and!.
    + by apply decodeHTMLEntities_nonempty.
    + by apply decodeHTMLEntities_nonempty.
    + etrans; [apply decodeHTMLEntities_length |].
      rewrite length_firstChars. lia.
Qed.

End FeedItems.

(** ** Text decoding *)

(** X4.  [decodeHTMLEntities] never lengthens a text, never empties a text
    that is not empty, and returns a text without an ampersand as it is. *)
Theorem decodeHTMLEntities_text (text : string) :
  String.length (Fetchers.decodeHTMLEntities text) ≤ String.length text
  ∧ (text ≠ EmptyString -> Fetchers.decodeHTMLEntities text ≠ EmptyString)
  ∧ (JsString.contains "&" text = false -> Fetchers.decodeHTMLEntities text = text).
Proof.
  split_and!.
  - apply decodeHTMLEntities_length.
  - apply decodeHTMLEntities_nonempty.
  - intros Hplain. unfold Fetchers.decodeHTMLEntities, Fetchers.replace.
    cbn [Fetchers.replaceFrom].
    change (RegExp.nodes Fetchers.entityRegex)
      with (RegExp.NRep false RegExp.One (RegExp.CsChar "&")
              :: List.tl (RegExp.nodes Fetchers.entityRegex)).
    rewrite search_without_first; [done |].
    clear -Hplain. induction text as [|c text IH]; [done |].
    cbn [JsString.contains] in Hplain.
    apply orb_false_iff in Hplain as [Hc Hplain].
    cbn [JsString.allChars]. rewrite IH by done.
    change (RegExp.ignoreCase Fetchers.entityRegex) with true.
    by rewrite ampersand_char, Hc.
Qed.

(** ** The feed variant *)

(** X5.  Every item [fetchRSS] returns for a source carries the id of the
    source, has the hash of its own address as id, a title and an address
    that are not empty, a description of at most 500 characters, no version
    and no pre-release flag, and passes the filter of the source when one is
    configured; there are at most 20 items. *)
Theorem fetchRSS_items
    (resolveURL : string -> string -> option string)
    (network : nat -> string -> Fetchers.Reply)
    (Date_parse : string -> Z) (Date_now : Z)
    (src : Source) (items : list Item) :
  Feeds.fetchRSS resolveURL network Date_parse Date_now src = Some items ->
  length items ≤ 20
  ∧ Forall (fun it =>
              source it = sourceId src
              ∧ id it = Hash.hashString (url it)
              ∧ title it ≠ EmptyString
              ∧ url it ≠ EmptyString
              ∧ String.length (description it) ≤ 500
              ∧ version it = None
              ∧ prerelease it = false
              ∧ ∀ wanted, sourceFilter src = Some wanted ->
                          wanted ≠ EmptyString ->
                          JsString.includes (title it) wanted
                          || JsString.includes (description it) wanted = true)
      items.
Proof.
  unfold Feeds.fetchRSS.
  destruct (Fetchers.fetchUrl _ _ _ _) as [[xml|e|]|]; try done.
  - intros [= <-].
    destruct (parseRSS_entries Date_parse Date_now xml) as [Hlen Hall].
    set (entries := Fetchers.parseRSS Date_parse Date_now xml) in *.
    assert (Hsub : ∀ entry, entry ∈ Feeds.applyFilter src entries ->
              entry ∈ entries
              ∧ ∀ wanted, sourceFilter src = Some wanted ->
                  wanted ≠ EmptyString ->
                  JsString.includes (Fetchers.entryTitle entry) wanted
                  || JsString.includes (Fetchers.entryDescription entry) wanted
                  = true).
    { intros entry. unfold Feeds.applyFilter.
      destruct (sourceFilter src) as [wanted|]; [|by split].
      destruct (JsString.truthy wanted) eqn:Hwanted.
      - rewrite list_elem_of_In, filter_In, <- list_elem_of_In.
        intros [Hin Hok]. split; [done |]. by intros ? [= <-] _.
      - intros Hin. split; [done |]. intros ? [= <-] Hne.
        by destruct wanted. }
    assert (Hshort : length (Feeds.applyFilter src entries) ≤ length entries).
    { unfold Feeds.applyFilter. destruct (sourceFilter src) as [wanted|]; [|done].
      destruct (JsString.truthy wanted); [|done]. apply List.filter_length_le. }
    split; [rewrite length_fmap; lia |].
    apply Forall_fmap, Forall_forall. intros entry Hentry.
    apply Hsub in Hentry as [Hentry Hfilter].
    rewrite Forall_forall in Hall. destruct (Hall _ Hentry) as (Ht & Hl & Hd).
    cbn [compose Feeds.normalize source id title url description version
           prerelease].
    rewrite (firstChars_all 500) by done. by split_and!.
  - intros [= <-]. split; [simpl; lia | constructor].
Qed.

(** A feed of three entries, the second without a link. *)
Definition sampleFeed (n : nat) (url : string) : Fetchers.Reply :=
  Fetchers.Response 200 None
    [ "<rss><channel><item><title>Release 2.0.0 &amp; notes</title>";
      "<link>https://example.org/r/2</link>";
      "<description>Breaking change</description></item>";
      "<item><title>Draft</title></item>";
      "<item><title>Weekly digest</title><link>https://example.org/w/7</link>";
      "</item></channel></rss>" ].

Definition sampleSource : Source :=
  mkSource "example" "Example" "app" "https://example.org/feed" (Some "Release") None.

Lemma fetchRSS_items_witness :
  Feeds.fetchRSS noResolution sampleFeed (fun _ => 0%Z) 0%Z sampleSource
  = Some [ mkItem (Hash.hashString "https://example.org/r/2")
             "Release 2.0.0 & notes" "https://example.org/r/2" "Breaking change"
             0%Z "example" None false ]
  ∧ length [ mkItem (Hash.hashString "https://example.org/r/2")
               "Release 2.0.0 & notes" "https://example.org/r/2" "Breaking change"
               0%Z "example" None false ] ≤ 20.
Proof.
  assert (Hrun : Feeds.fetchRSS noResolution sampleFeed (fun _ => 0%Z) 0%Z sampleSource
                 = Some [ mkItem (Hash.hashString "https://example.org/r/2")
                            "Release 2.0.0 & notes" "https://example.org/r/2"
                            "Breaking change" 0%Z "example" None false ])
    by (vm_compute; reflexivity).
  split; [exact Hrun |].
  exact (proj1 (fetchRSS_items noResolution sampleFeed (fun _ => 0%Z) 0%Z
                  sampleSource _ Hrun)).
Defined.

(** X6.  A source that cannot be read contributes no item: when the request
    fails, gets no answer in time, or is answered with a status that is
    neither a redirect nor 200, [fetchRSS] returns the empty list. *)
Theorem fetchRSS_failed_fetch
    (resolveURL : string -> string -> option string)
    (network : nat -> string -> Fetchers.Reply)
    (Date_parse : string -> Z) (Date_now : Z) (src : Source) :
  (network 0 (sourceUrl src) = Fetchers.Silent
   ∨ (∃ message, network 0 (sourceUrl src) = Fetchers.Failed message)
   ∨ (∃ statusCode location chunks,
        network 0 (sourceUrl src) = Fetchers.Response statusCode location chunks
        ∧ Fetchers.isRedirect statusCode = false
        ∧ statusCode ≠ 200%Z)) ->
  Feeds.fetchRSS resolveURL network Date_parse Date_now src = Some [].
Proof.
  unfold Feeds.fetchRSS, Fetchers.fetchUrl.
  intros [Hnet|[[message Hnet]|(statusCode & location & chunks & Hnet & Hred & Hst)]];
    cbn [Fetchers.fetchUrlFrom]; rewrite Hnet; try done.
  rewrite Hred. by rewrite bool_decide_eq_true_2.
Qed.

Lemma fetchRSS_failed_fetch_witness :
  Feeds.fetchRSS noResolution noContent (fun _ => 0%Z) 0%Z sampleSource = Some [].
Proof.
  apply fetchRSS_failed_fetch. right; right.
  exists 204%Z, None, []. split; [reflexivity |]. split; [reflexivity | lia].
Defined.

(* ===================================================================== *)
(** * lib/scorer.js: scoring a run *)
(* ===================================================================== *)

Module Ranking.
Import Scorer.

(** [sources.find(s => s.id === sourceId)] *)
Definition find (sources : list Source) (wanted : string) : option Source :=
  List.find (fun s => String.eqb (sourceId s) wanted) sources.

(** Lines 221-228: the item with the fields of its scoring attached. *)
Definition attach (item : Item) (source : Source) (scoringResult : Scoring)
  : ScoredItem :=
  mkScoredItem item (severity scoringResult) (score scoringResult)
    (reasons scoringResult) (category source) (name source).

(** Lines 218-230: [items.forEach(item => scored.push(...))] *)
Fixpoint pushItems (source : Source) (items : list Item)
    (scored : list ScoredItem) : option (list ScoredItem) :=
  match items with
  | [] => Some scored
  | item :: items' =>
      scoringResult ← scoreItem item source;
      pushItems source items' (scored ++ [attach item source scoringResult])
  end.

(** Lines 214-231.  [sourceResults] is given by its entries, in the order
    of [Object.entries]. *)
Fixpoint collect (sources : list Source) (entries : list (string * list Item))
    (scored : list ScoredItem) : option (list ScoredItem) :=
  match entries with
  | [] => Some scored
  | (sourceId, items) :: entries' =>
      match find sources sourceId with
      | None => collect sources entries' scored
      | Some source =>
          scored' ← pushItems source items scored;
          collect sources entries' scored'
      end
  end.

(** Lines 234-239: the comparison function of the sort.  Timestamps are
    finite numbers. *)
Definition compare (a b : ScoredItem) : Z :=
  if bool_decide (severityScore a ≠ severityScore b)
  then (severityScore b - severityScore a)%Z
  else (publishedAt (item b) - publishedAt (item a))%Z.

(** [Array.prototype.sort] with a comparison function: the sort is stable,
    so under a consistent comparison its result is the one of inserting
    each element before the first one it does not come after. *)
Fixpoint insert (a : ScoredItem) (sorted : list ScoredItem) : list ScoredItem :=
  match sorted with
  | [] => [a]
  | b :: rest =>
      if (compare a b <=? 0)%Z then a :: b :: rest else b :: insert a rest
  end.

Definition sort (l : list ScoredItem) : list ScoredItem := foldr insert [] l.

(** [scoreAllItems(sourceResults, sources)] *)
Definition scoreAllItems (sourceResults : list (string * list Item))
    (sources : list Source) : option (list ScoredItem) :=
  scored ← collect sources sourceResults [];
  Some (sort scored).

(** [a] is listed before [b]: a higher score, or the same score and a date
    that is not older. *)
Definition ranksBefore (a b : ScoredItem) : Prop :=
  (severityScore b < severityScore a)%Z
  ∨ (severityScore a = severityScore b
     ∧ (publishedAt (item b) <= publishedAt (item a))%Z).

(** The scoring of an item, by the keyword tiers that match it. *)
Definition scoringOf (item : Item) (source : Source) : Scoring :=
  finish (prereleaseAdjust item
            (versionAdjust item
               (baseSeverity
                  (mkMatches (Spec.matched CRITICAL_KEYWORDS item)
                     (Spec.matched HIGH_KEYWORDS item)
                     (Spec.matched MEDIUM_KEYWORDS item)
                     (Spec.matched LOW_KEYWORDS item))
                  source))).

(** The scored items of one entry of the results, in the order of the
    entry; none for a source that is not configured. *)
Definition scoredEntry (sources : list Source) (entry : string * list Item)
  : list ScoredItem :=
  match find sources (fst entry) with
  | Some source => (fun item => attach item source (scoringOf item source)) <$> snd entry
  | None => []
  end.

End Ranking.

Section RankingFacts.
Import Scorer Ranking.

Lemma scoreItem_scoringOf (item : Item) (source : Source) :
  scoreItem item source = Some (scoringOf item source).
Proof. unfold scoreItem. by rewrite collectMatches_matched. Qed.

Lemma pushItems_returns (source : Source) (items : list Item) :
  ∀ scored,
    pushItems source items scored
    = Some (scored ++ ((fun item => attach item source (scoringOf item source))
                         <$> items)).
Proof.
  induction items as [|item items IH]; intros scored.
  - by rewrite app_nil_r.
  - cbn [pushItems]. rewrite scoreItem_scoringOf. cbn [mbind option_bind].
    rewrite IH, <- app_assoc. done.
Qed.

Lemma collect_returns (sources : list Source) (entries : list (string * list Item)) :
  ∀ scored,
    collect sources entries scored
    = Some (scored ++ mjoin (scoredEntry sources <$> entries)).
Proof.
  induction entries as [|[sourceId items] entries IH]; intros scored.
  - by rewrite app_nil_r.
  - cbn [collect fmap list_fmap mjoin list_join]. unfold scoredEntry at 1.
    cbn [fst snd]. destruct (find sources sourceId) as [source|].
    + rewrite pushItems_returns. cbn [mbind option_bind].
      rewrite IH, <- app_assoc. done.
    + by rewrite IH.
Qed.

Lemma compare_ranksBefore (a b : ScoredItem) :
  (compare a b <= 0)%Z ↔ ranksBefore a b.
Proof.
  unfold compare, ranksBefore. case_bool_decide; lia.
Qed.

Lemma ranksBefore_trans (a b c : ScoredItem) :
  ranksBefore a b -> ranksBefore b c -> ranksBefore a c.
Proof. unfold ranksBefore. lia. Qed.

Lemma ranksBefore_total (a b : ScoredItem) :
  ¬ ranksBefore a b -> ranksBefore b a.
Proof. unfold ranksBefore. lia. Qed.

Lemma insert_Permutation (a : ScoredItem) (l : list ScoredItem) :
  insert a l ≡ₚ a :: l.
Proof.
  induction l as [|b l IH]; [done |]. cbn [insert].
  destruct (compare a b <=? 0)%Z; [done |].
  by rewrite IH, Permutation_swap.
Qed.

Lemma sort_Permutation (l : list ScoredItem) : sort l ≡ₚ l.
Proof.
  induction l as [|a l IH]; [done |].
  cbn [sort foldr]. fold (sort l). by rewrite insert_Permutation, IH.
Qed.

(** Every element is listed before all the later ones. *)
Inductive ranked : list ScoredItem -> Prop :=
| ranked_nil : ranked []
| ranked_cons a l : Forall (ranksBefore a) l -> ranked l -> ranked (a :: l).

Lemma insert_ranked (a : ScoredItem) (l : list ScoredItem) :
  ranked l -> ranked (insert a l).
Proof.
  induction 1 as [|b l Hb Hl IH]; cbn [insert].
  - by repeat constructor.
  - destruct (Z.leb_spec (compare a b) 0) as [Hab|Hab].
    + apply compare_ranksBefore in Hab. constructor; [|by constructor].
      constructor; [done |].
      eapply Forall_impl; [exact Hb |]. intros c. by apply ranksBefore_trans.
    + constructor; [|done]. rewrite insert_Permutation. constructor; [|done].
      apply ranksBefore_total. rewrite <- compare_ranksBefore. lia.
Qed.

Lemma sort_ranked (l : list ScoredItem) : ranked (sort l).
Proof.
  induction l as [|a l IH]; [constructor |].
  cbn [sort foldr]. by apply insert_ranked.
Qed.

Lemma ranked_lookup (l : list ScoredItem) :
  ranked l ->
  ∀ i j a b, i < j -> l !! i = Some a -> l !! j = Some b -> ranksBefore a b.
Proof.
  induction 1 as [|c l Hc Hl IH]; intros i j a b Hij Ha Hb; [done |].
  destruct j as [|j]; [lia |]. cbn in Hb. destruct i as [|i].
  - cbn in Ha. injection Ha as <-. rewrite Forall_forall in Hc.
    by eapply Hc, list_elem_of_lookup_2.
  - cbn in Ha. eapply (IH i j); [lia | done..].
Qed.



End RankingFacts.

(** ** Scoring a run *)

(** X7.  [scoreAllItems] always returns, and its result is ranked: of any
    two of its elements the earlier one has the higher score, or the same
    score and a publication date that is not older. *)
Theorem scoreAllItems_ranked (sourceResults : list (string * list Item))
    (sources : list Source) :
  ∃ scored,
    Ranking.scoreAllItems sourceResults sources = Some scored
    ∧ ∀ i j a b, i < j -> scored !! i = Some a -> scored !! j = Some b ->
                 Ranking.ranksBefore a b.
Proof.
  unfold Ranking.scoreAllItems. rewrite collect_returns. cbn [mbind option_bind].
  eexists. split; [done |]. apply ranked_lookup, sort_ranked.
Qed.

(** X8.  The result of [scoreAllItems] holds, in some order, exactly the
    items of the entries whose source is configured, none lost and none
    repeated; the items of an entry with no configured source are left out.
    Each element carries the scoring [scoreItem] gives its item for the
    first configured source with the id of the entry, the category and the
    name of that source, and a score between 1 and 4 that is the one of its
    severity. *)
Theorem scoreAllItems_items (sourceResults : list (string * list Item))
    (sources : list Source) :
  ∃ scored,
    Ranking.scoreAllItems sourceResults sources = Some scored
    ∧ scored ≡ₚ mjoin (Ranking.scoredEntry sources <$> sourceResults)
    ∧ Forall (fun s =>
                ∃ key items src,
                  (key, items) ∈ sourceResults
                  ∧ item s ∈ items
                  ∧ Ranking.find sources key = Some src
                  ∧ sourceId src = key
                  ∧ Scorer.scoreItem (item s) src
                    = Some (Scorer.mkScoring (itemSeverity s) (severityReasons s)
                              (severityScore s))
                  ∧ itemCategory s = category src
                  ∧ sourceName s = name src
                  ∧ severityScore s = Scorer.getSeverityScore (itemSeverity s)
                  ∧ (1 <= severityScore s <= 4)%Z)
        scored.
Proof.
  unfold Ranking.scoreAllItems. rewrite collect_returns. cbn [mbind option_bind].
  eexists. split; [done |]. rewrite app_nil_l.
  split; [apply sort_Permutation |]. rewrite sort_Permutation.
  apply Forall_forall. intros s Hs.
  apply list_elem_of_join in Hs as (l & Hs & Hl).
  apply list_elem_of_fmap in Hl as ([key items] & -> & Hentry).
  unfold Ranking.scoredEntry in Hs. cbn [fst snd] in Hs.
  destruct (Ranking.find sources key) as [src|] eqn:Hfind;
    [|by apply elem_of_nil in Hs].
  apply list_elem_of_fmap in Hs as (it & -> & Hit).
  exists key, items, src. cbn [Ranking.attach item itemSeverity
    severityReasons severityScore itemCategory sourceName].
  split_and!; try done.
  - unfold Ranking.find in Hfind. apply find_some in Hfind as [_ Heq].
    by apply String.eqb_eq in Heq.
  - rewrite scoreItem_scoringOf. by destruct (Ranking.scoringOf it src).
  - unfold Ranking.scoringOf, Scorer.finish. cbn [Scorer.score Scorer.severity].
    by destruct (fst _).
  - unfold Ranking.scoringOf, Scorer.finish. cbn [Scorer.score Scorer.severity].
    by destruct (fst _).
Qed.


(** X10.  The tier [scoreItem] gives is at most one tier away from the tier
    of the keywords; a pre-release is never critical, a major version that
    is not a pre-release is never low, and the score is the number of the
    tier, from 1 for low to 4 for critical. *)
Theorem scoreItem_tiers (item : Item) (source : Source) :
  ∃ matches r,
    Scorer.collectMatches item = Some matches
    ∧ Scorer.scoreItem item source = Some r
    ∧ Scorer.score r = Scorer.getSeverityScore (Scorer.severity r)
    ∧ (1 <= Scorer.score r <= 4)%Z
    ∧ (Z.abs (Scorer.score r
              - Scorer.getSeverityScore (fst (Scorer.baseSeverity matches source)))
       <= 1)%Z
    ∧ (prerelease item = true -> Scorer.severity r ≠ critical)
    ∧ (Scorer.isMajorVersion item = true -> prerelease item = false ->
       Scorer.severity r ≠ low)
    ∧ (Scorer.isMajorVersion item = false -> prerelease item = false ->
       Scorer.severity r = fst (Scorer.baseSeverity matches source)).
Proof.
  eexists _, _. split; [apply collectMatches_matched |].
  split; [apply scoreItem_scoringOf |].
  unfold Ranking.scoringOf, Scorer.finish. cbn [Scorer.score Scorer.severity].
  rewrite prereleaseAdjust_severity, versionAdjust_severity.
  destruct (fst (Scorer.baseSeverity _ source)), (Scorer.isMajorVersion item),
    (prerelease item); cbn; split_and!; try done; lia.
Qed.

(** The items [fetchRSS] returns are built by [normalize]. *)
Lemma fetchRSS_normalized
    (resolveURL : string -> string -> option string)
    (network : nat -> string -> Fetchers.Reply)
    (Date_parse : string -> Z) (Date_now : Z)
    (src : Source) (items : list Item) (it : Item) :
  Feeds.fetchRSS resolveURL network Date_parse Date_now src = Some items ->
  it ∈ items ->
  ∃ entry, it = Feeds.normalize src entry.
Proof.
  unfold Feeds.fetchRSS.
  destruct (Fetchers.fetchUrl _ _ _ _) as [[xml|e|]|]; try done.
  - intros [= <-] Hit. apply list_elem_of_fmap in Hit as (entry & -> & _). eauto.
  - intros [= <-] Hit. by apply elem_of_nil in Hit.
Qed.

(** X11.  The items of a feed carry neither a version nor a pre-release
    flag, so no adjustment applies to them: for every item [fetchRSS]
    returns, [scoreItem] gives the tier and the first three distinct reasons
    of the keywords, or of the hint of the source. *)
Theorem scoreItem_feed_item
    (resolveURL : string -> string -> option string)
    (network : nat -> string -> Fetchers.Reply)
    (Date_parse : string -> Z) (Date_now : Z)
    (feed source : Source) (items : list Item) (it : Item) :
  Feeds.fetchRSS resolveURL network Date_parse Date_now feed = Some items ->
  it ∈ items ->
  ∃ matches,
    Scorer.collectMatches it = Some matches
    ∧ Scorer.scoreItem it source
      = Some (Scorer.finish (Scorer.baseSeverity matches source)).
Proof.
  intros Hfeed Hit.
  destruct (fetchRSS_normalized _ _ _ _ _ _ _ Hfeed Hit) as [entry ->].
  eexists. split; [apply collectMatches_matched |].
  rewrite scoreItem_scoringOf. unfold Ranking.scoringOf. do 2 f_equal.
  by destruct (Scorer.baseSeverity _ source) as [sev rs].
Qed.

Definition sampleItem : Item :=
  mkItem (Hash.hashString "https://example.org/r/2")
    "Release 2.0.0 & notes" "https://example.org/r/2" "Breaking change"
    0%Z "example" None false.

Lemma scoreItem_feed_item_witness :
  ∃ matches,
    Scorer.collectMatches sampleItem = Some matches
    ∧ Scorer.scoreItem sampleItem sampleSource
      = Some (Scorer.finish (Scorer.baseSeverity matches sampleSource)).
Proof.
  apply (scoreItem_feed_item noResolution sampleFeed (fun _ => 0%Z) 0%Z
           sampleSource sampleSource [sampleItem] sampleItem).
  - vm_compute. reflexivity.
  - left.
Defined.

(* ===================================================================== *)
(** * lib/scorer.js: the summary of a run *)
(* ===================================================================== *)

Module Summary.

(** The five counters of the summary, and of each of its categories. *)
Record Counts : Type := mkCounts {
  total : nat;
  criticals : nat;
  highs : nat;
  mediums : nat;
  lows : nat
}.

Record Stats : Type := mkStats {
  overall : Counts;                    (* total, critical, high, medium, low *)
  byCategory : gmap string Counts      (* the own properties of [byCategory] *)
}.

(** [counts[severity]++] *)
Definition bump (severity : Severity) (counts : Counts) : Counts :=
  match severity with
  | critical => mkCounts (total counts) (S (criticals counts)) (highs counts)
                  (mediums counts) (lows counts)
  | high => mkCounts (total counts) (criticals counts) (S (highs counts))
              (mediums counts) (lows counts)
  | medium => mkCounts (total counts) (criticals counts) (highs counts)
                (S (mediums counts)) (lows counts)
  | low => mkCounts (total counts) (criticals counts) (highs counts)
             (mediums counts) (S (lows counts))
  end.

(** [counts.total++] *)
Definition bumpTotal (counts : Counts) : Counts :=
  mkCounts (S (total counts)) (criticals counts) (highs counts) (mediums counts)
    (lows counts).

Definition zero : Counts := mkCounts 0 0 0 0 0.

(** Lines 257-270, the body of the loop.  [byCategory] is an object
    literal: a category that names a member of [Object.prototype] reads that
    member, which is truthy, so no entry is created and the two increments
    are made on the member itself; the own properties stay as they are. *)
Definition countItem (stats : Stats) (scored : ScoredItem) : Stats :=
  let overall := bump (itemSeverity scored) (overall stats) in
  let key := itemCategory scored in
  match byCategory stats !! key with
  | Some counts =>
      mkStats overall
        (<[key := bump (itemSeverity scored) (bumpTotal counts)]> (byCategory stats))
  | None =>
      if Cache.inherited key then mkStats overall (byCategory stats)
      else mkStats overall
             (<[key := bump (itemSeverity scored) (bumpTotal zero)]> (byCategory stats))
  end.

(** [getSummaryStats(scoredItems)] *)
Definition getSummaryStats (scoredItems : list ScoredItem) : Stats :=
  foldl countItem (mkStats (mkCounts (length scoredItems) 0 0 0 0) ∅) scoredItems.

(** The number of items of a tier. *)
Definition ofTier (severity : Severity) (l : list ScoredItem) : nat :=
  length (filter (fun scored => itemSeverity scored = severity) l).

(** The items of a category. *)
Definition inCategory (key : string) (l : list ScoredItem) : list ScoredItem :=
  filter (fun scored => itemCategory scored = key) l.

Definition tally (l : list ScoredItem) : Counts :=
  mkCounts (length l) (ofTier critical l) (ofTier high l) (ofTier medium l)
    (ofTier low l).

End Summary.

Section SummaryFacts.
Import Summary.

Lemma ofTier_snoc (severity : Severity) (l : list ScoredItem) (x : ScoredItem) :
  ofTier severity (l ++ [x])
  = ofTier severity l + (if decide (itemSeverity x = severity) then 1 else 0).
Proof.
  unfold ofTier. rewrite filter_app, length_app, filter_cons, filter_nil.
  by destruct (decide _).
Qed.

Lemma tally_snoc (l : list ScoredItem) (x : ScoredItem) :
  tally (l ++ [x]) = bump (itemSeverity x) (bumpTotal (tally l)).
Proof.
  unfold tally, bumpTotal. rewrite !ofTier_snoc, length_app.
  destruct (itemSeverity x); cbn; f_equal; repeat case_decide; try done; lia.
Qed.

(** The entry of a category after the items [l]. *)
Definition categoryEntry (l : list ScoredItem) (key : string) : option Counts :=
  if Cache.inherited key then None
  else match inCategory key l with
       | [] => None
       | _ :: _ => Some (tally (inCategory key l))
       end.

Lemma inCategory_snoc (key : string) (l : list ScoredItem) (x : ScoredItem) :
  inCategory key (l ++ [x])
  = inCategory key l ++ (if decide (itemCategory x = key) then [x] else []).
Proof. unfold inCategory. by rewrite filter_app, filter_cons, filter_nil. Qed.

Lemma countItem_invariant (n : nat) (l : list ScoredItem) (x : ScoredItem)
    (stats : Stats) :
  overall stats
  = mkCounts n (ofTier critical l) (ofTier high l) (ofTier medium l) (ofTier low l) ->
  (∀ key, byCategory stats !! key = categoryEntry l key) ->
  overall (countItem stats x)
  = mkCounts n (ofTier critical (l ++ [x])) (ofTier high (l ++ [x]))
      (ofTier medium (l ++ [x])) (ofTier low (l ++ [x]))
  ∧ ∀ key, byCategory (countItem stats x) !! key = categoryEntry (l ++ [x]) key.
Proof.
  intros Hoverall Hcategories. split.
  - assert (overall (countItem stats x) = bump (itemSeverity x) (overall stats))
      as -> by (unfold countItem; by repeat case_match).
    rewrite Hoverall, !ofTier_snoc.
    destruct (itemSeverity x); cbn; f_equal; repeat case_decide; try done; lia.
  - intros key. pose proof (Hcategories (itemCategory x)) as Hown.
    destruct (decide (itemCategory x = key)) as [<-|Hne].
    + unfold categoryEntry in *. rewrite inCategory_snoc, decide_True by done.
      unfold countItem.
      destruct (Cache.inherited (itemCategory x)) eqn:Hin.
      * rewrite Hown. cbn [byCategory]. by rewrite Hown.
      * destruct (inCategory (itemCategory x) l) as [|y l'] eqn:Hl.
        -- rewrite Hown. cbn [byCategory].
           rewrite lookup_insert_eq, (tally_snoc [] x). reflexivity.
        -- rewrite Hown. cbn [byCategory].
           by rewrite lookup_insert_eq, <- tally_snoc.
    + assert (categoryEntry (l ++ [x]) key = categoryEntry l key) as ->.
      { unfold categoryEntry.
        by rewrite inCategory_snoc, decide_False, app_nil_r by done. }
      rewrite <- (Hcategories key). unfold countItem.
      repeat case_match; cbn [byCategory]; by rewrite ?lookup_insert_ne.
Qed.

Lemma foldl_countItem (n : nat) (more : list ScoredItem) :
  ∀ l stats,
    overall stats
    = mkCounts n (ofTier critical l) (ofTier high l) (ofTier medium l) (ofTier low l) ->
    (∀ key, byCategory stats !! key = categoryEntry l key) ->
    overall (foldl countItem stats more)
    = mkCounts n (ofTier critical (l ++ more)) (ofTier high (l ++ more))
        (ofTier medium (l ++ more)) (ofTier low (l ++ more))
    ∧ ∀ key, byCategory (foldl countItem stats more) !! key
             = categoryEntry (l ++ more) key.
Proof.
  induction more as [|x more IH]; intros l stats Hoverall Hcategories.
  - rewrite app_nil_r. by split.
  - cbn [foldl]. replace (l ++ x :: more) with ((l ++ [x]) ++ more)
      by (by rewrite <- app_assoc).
    destruct (countItem_invariant n l x stats Hoverall Hcategories).
    by apply IH.
Qed.

Lemma ofTier_sum (l : list ScoredItem) :
  ofTier critical l + ofTier high l + ofTier medium l + ofTier low l = length l.
Proof.
  induction l as [|x l IH]; [done |].
  change (x :: l) with ([x] ++ l). unfold ofTier in *.
  rewrite !filter_app, !length_app, !filter_cons, !filter_nil.
  destruct (itemSeverity x); repeat case_decide; try done; cbn; lia.
Qed.

End SummaryFacts.

Section SummaryTotals.
Import Summary.

(** The sum of the totals of the categories. *)
Definition sumTotals (m : gmap string Counts) : nat :=
  map_fold (fun _ counts sum => total counts + sum) 0 m.

Lemma sumTotals_insert_new (m : gmap string Counts) (key : string) (c : Counts) :
  m !! key = None -> sumTotals (<[key := c]> m) = total c + sumTotals m.
Proof.
  intros Hkey. unfold sumTotals. rewrite map_fold_insert_L; [done | | done].
  intros. lia.
Qed.

Lemma sumTotals_insert_own (m : gmap string Counts) (key : string) (c c' : Counts) :
  m !! key = Some c ->
  sumTotals (<[key := c']> m) + total c = sumTotals m + total c'.
Proof.
  intros Hkey. rewrite <- (insert_delete_id m key c) at 2 by done.
  rewrite <- (insert_delete_eq m key c').
  rewrite !sumTotals_insert_new by apply lookup_delete_eq. lia.
Qed.

(** The items whose category does not name a member of [Object.prototype]. *)
Definition counted (l : list ScoredItem) : list ScoredItem :=
  filter (fun scored => Cache.inherited (itemCategory scored) = false) l.

Lemma countItem_sumTotals (l : list ScoredItem) (x : ScoredItem) (stats : Stats) :
  (∀ key, byCategory stats !! key = categoryEntry l key) ->
  sumTotals (byCategory (countItem stats x))
  = sumTotals (byCategory stats) + length (counted [x]).
Proof.
  intros Hcategories. pose proof (Hcategories (itemCategory x)) as Hown.
  unfold categoryEntry in Hown. unfold countItem, counted.
  rewrite filter_cons, filter_nil.
  destruct (Cache.inherited (itemCategory x)) eqn:Hin.
  - rewrite Hown. cbn [byCategory]. rewrite decide_False by done. simpl. lia.
  - rewrite decide_True by done.
    destruct (byCategory stats !! itemCategory x) as [c|] eqn:Hc; cbn [byCategory].
    + pose proof (sumTotals_insert_own _ _ _
                    (bump (itemSeverity x) (bumpTotal c)) Hc) as Hsum.
      assert (total (bump (itemSeverity x) (bumpTotal c)) = S (total c))
        by (by destruct (itemSeverity x)).
      simpl. lia.
    + rewrite sumTotals_insert_new by done.
      assert (total (bump (itemSeverity x) (bumpTotal zero)) = 1)
        by (by destruct (itemSeverity x)).
      simpl. lia.
Qed.

Lemma foldl_sumTotals (n : nat) (more : list ScoredItem) :
  ∀ l stats,
    overall stats
    = mkCounts n (ofTier critical l) (ofTier high l) (ofTier medium l) (ofTier low l) ->
    (∀ key, byCategory stats !! key = categoryEntry l key) ->
    sumTotals (byCategory (foldl countItem stats more))
    = sumTotals (byCategory stats) + length (counted more).
Proof.
  induction more as [|x more IH]; intros l stats Hoverall Hcategories.
  - simpl. lia.
  - cbn [foldl].
    destruct (countItem_invariant n l x stats Hoverall Hcategories) as [Ho Hc].
    rewrite (IH _ _ Ho Hc), (countItem_sumTotals l) by done.
    change (x :: more) with ([x] ++ more). unfold counted.
    rewrite (filter_app _ [x]), length_app. lia.
Qed.

Lemma categoryEntry_nil (n : nat) (key : string) :
  byCategory (mkStats (mkCounts n 0 0 0 0) ∅) !! key = categoryEntry [] key.
Proof.
  cbn [byCategory]. rewrite lookup_empty. unfold categoryEntry.
  by destruct (Cache.inherited key).
Qed.

Lemma getSummaryStats_tally (B : list ScoredItem) :
  overall (getSummaryStats B) = tally B
  ∧ ∀ key, byCategory (getSummaryStats B) !! key = categoryEntry B key.
Proof.
  unfold getSummaryStats.
  apply (foldl_countItem (length B) B []); [done |]. apply categoryEntry_nil.
Qed.

Lemma getSummaryStats_sumTotals (B : list ScoredItem) :
  sumTotals (byCategory (getSummaryStats B)) = length (counted B).
Proof.
  unfold getSummaryStats.
  rewrite (foldl_sumTotals (length B) B []); [done.. |]. apply categoryEntry_nil.
Qed.

End SummaryTotals.

(** ** The summary of a run *)

(** X12.  In the summary of a batch the total is the number of its items,
    each tier counts the items of that tier, and the four tiers add up to
    the total. *)
Theorem getSummaryStats_overall (B : list ScoredItem) :
  let stats := Summary.overall (Summary.getSummaryStats B) in
  Summary.total stats = length B
  ∧ Summary.criticals stats = Summary.ofTier critical B
  ∧ Summary.highs stats = Summary.ofTier high B
  ∧ Summary.mediums stats = Summary.ofTier medium B
  ∧ Summary.lows stats = Summary.ofTier low B
  ∧ Summary.criticals stats + Summary.highs stats + Summary.mediums stats
    + Summary.lows stats = Summary.total stats.
Proof.
  destruct (getSummaryStats_tally B) as [-> _].
  cbn. split_and!; try done. apply ofTier_sum.
Qed.

(** X13.  The summary has an entry for a category exactly when the batch
    has an item of that category and the category names no member of
    [Object.prototype]; the entry then counts the items of the category, in
    all and by tier, and its tiers add up to its total.  The items of a
    category named like a member of [Object.prototype] are counted in no
    entry. *)
Theorem getSummaryStats_byCategory (B : list ScoredItem) (key : string) :
  let entry := Summary.byCategory (Summary.getSummaryStats B) !! key in
  let items := Summary.inCategory key B in
  (entry = None ↔ items = [] ∨ Cache.inherited key = true)
  ∧ ∀ counts, entry = Some counts ->
      counts = Summary.tally items
      ∧ 0 < Summary.total counts
      ∧ Summary.criticals counts + Summary.highs counts + Summary.mediums counts
        + Summary.lows counts = Summary.total counts.
Proof.
  destruct (getSummaryStats_tally B) as [_ Hentry].
  cbn zeta. rewrite Hentry. unfold categoryEntry.
  destruct (Cache.inherited key); [naive_solver |].
  destruct (Summary.inCategory key B) as [|x l] eqn:Hitems; [naive_solver |].
  split; [naive_solver |]. intros counts [= <-]. split; [done |].
  split; [simpl; lia |]. apply ofTier_sum.
Qed.

(** X14.  The totals of the categories of the summary add up to the number
    of the items whose category names no member of [Object.prototype]; when
    the batch has no other item, they add up to the total of the summary. *)
Theorem getSummaryStats_categories_total (B : list ScoredItem) :
  let stats := Summary.getSummaryStats B in
  sumTotals (Summary.byCategory stats) = length (counted B)
  ∧ (Forall (fun scored => Cache.inherited (itemCategory scored) = false) B ->
     sumTotals (Summary.byCategory stats) = Summary.total (Summary.overall stats)).
Proof.
  cbn zeta. rewrite getSummaryStats_sumTotals. split; [done |].
  intros Hall. destruct (getSummaryStats_tally B) as [-> _].
  unfold counted. rewrite filter_all; [done |]. by apply Forall_forall.
Qed.

(* ===================================================================== *)
(** * lib/cache.js: the report on the cache *)
(* ===================================================================== *)

Module Report.
Import Cache.

Record SourceSummary : Type := mkSourceSummary {
  summaryId : string;
  summaryLastUpdated : string;
  summaryItemCount : nat;
  summaryLatestTitle : option string   (* [data.latestItem?.title] *)
}.

Inductive CacheStats : Type :=
| NotInitialized (message : string)
| Initialized (lastRun : option string) (sourceCount totalItems : nat)
    (sources : list SourceSummary).

(** [Object.keys(o)] and [Object.entries(o)]; the entries come in the
    order of the map, the order of the properties is not modelled. *)
Definition Object_keys {A} (o : gmap string A) : list string := (map_to_list o).*1.

Definition Object_entries {A} (o : gmap string A) : list (string * A) := map_to_list o.

(** [getCacheStats()], of the state that [loadState()] returns.  A counter
    that is present is a number, and [n || 0] is [n]. *)
Definition getCacheStats (state : State) : CacheStats :=
  if negb (initialized state) then NotInitialized "Cache not initialized"
  else
    let sourceCount := length (Object_keys (sources state)) in
    let totalItems :=
      foldl (fun sum src => sum + itemCount src) 0 (Object_values (sources state)) in
    Initialized (Cache.lastRun state) sourceCount totalItems
      ((fun entry =>
          mkSourceSummary (fst entry) (lastUpdated (snd entry))
            (itemCount (snd entry))
            (Cache.latestTitle <$> latestItem (snd entry)))
         <$> Object_entries (sources state)).

End Report.

Section ReportFacts.
Import Cache Report.

Lemma foldl_sum {A} (f : A -> nat) (l : list A) :
  ∀ a, foldl (fun sum x => sum + f x) a l = a + sum_list_with f l.
Proof.
  induction l as [|x l IH]; intros a; simpl; [lia |]. rewrite IH. lia.
Qed.

Lemma fromSource_other (j k : string) (B : list ScoredItem) :
  j ≠ k ->
  fromSource j (filter (fun scored => ¬ source (item scored) = k) B)
  = fromSource j B.
Proof.
  intros Hjk. unfold fromSource. rewrite list_filter_filter.
  apply list_filter_iff. intros x. naive_solver.
Qed.

Lemma fromSource_same (k : string) (B : list ScoredItem) :
  fromSource k (filter (fun scored => ¬ source (item scored) = k) B) = [].
Proof.
  unfold fromSource. rewrite list_filter_filter.
  apply filter_none. intros x _. naive_solver.
Qed.

(** A map that holds, for every source of a batch, an entry that counts the
    items of the source, counts the items of the batch. *)
Lemma grouped_total (entry : string -> list ScoredItem -> SourceState) :
  (∀ k items, itemCount (entry k items) = length items) ->
  ∀ (m : gmap string SourceState) (B : list ScoredItem),
    (∀ k, m !! k = match fromSource k B with
                   | [] => None
                   | _ :: _ => Some (entry k (fromSource k B))
                   end) ->
    sum_list_with itemCount (Object_values m) = length B.
Proof.
  intros Hcount m. induction m as [|k st m Hk IH] using map_ind; intros B Hm.
  - destruct B as [|x B]; [done |]. specialize (Hm (source (item x))).
    rewrite lookup_empty in Hm. unfold fromSource in Hm.
    by rewrite filter_cons_True in Hm by done.
  - unfold Object_values. rewrite map_to_list_insert by done.
    rewrite fmap_cons. cbn [sum_list_with snd]. fold (Object_values m).
    pose proof (Hm k) as Hst. rewrite lookup_insert_eq in Hst.
    rewrite (IH (filter (fun scored => ¬ source (item scored) = k) B)).
    + destruct (fromSource k B) as [|y items] eqn:E; [done |].
      injection Hst as ->. rewrite Hcount, <- E. unfold fromSource.
      by rewrite <- length_app, filter_app_complement.
    + intros j. destruct (decide (j = k)) as [->|Hjk].
      * by rewrite fromSource_same.
      * rewrite fromSource_other by done. rewrite <- (Hm j).
        by rewrite lookup_insert_ne.
Qed.

Lemma updateState_lookup (clock : option string -> string) (B : list ScoredItem)
    (S : State) :
  updateState clock B = Normal S ->
  ∀ k, sources S !! k
       = match fromSource k B with
         | [] => None
         | _ :: _ => Some (sourceEntry (clock (Some k)) (fromSource k B))
         end.
Proof.
  intros HS k. destruct (updateState_sources clock B S k HS) as [_ ->].
  by destruct (fromSource k B).
Qed.

Lemma updateState_lastRun (clock : option string -> string) (B : list ScoredItem)
    (S : State) :
  updateState clock B = Normal S ->
  Cache.lastRun S = Some (clock None) ∧ initialized S = true.
Proof.
  unfold updateState. destruct (groupBySource ∅ B); [|done]. by intros [= <-].
Qed.

Lemma fromSource_nonempty (k : string) (B : list ScoredItem) :
  fromSource k B ≠ [] ↔ k ∈ (fun scored => source (item scored)) <$> B.
Proof.
  rewrite list_elem_of_fmap. unfold fromSource. split.
  - destruct (filter _ B) as [|x l] eqn:E; [done |]. intros _.
    assert (Hx : x ∈ filter (fun scored => source (item scored) = k) B)
      by (rewrite E; left).
    apply list_elem_of_filter in Hx as [Hk Hx]. eauto.
  - intros (x & -> & Hx) Hnil.
    assert (Hin : x ∈ filter (fun scored => source (item scored) = source (item x)) B)
      by (by apply list_elem_of_filter).
    rewrite Hnil in Hin. by apply elem_of_nil in Hin.
Qed.

End ReportFacts.

(** ** Consecutive runs *)

(** X15.  After a run has stored the snapshot of the batch [B1], the next
    run reports of its batch [B2] exactly the items whose id is the id of no
    item of [B1], in the order of [B2]; the ids are compared across all
    sources, and the run is not a first run. *)
Theorem getNewItems_after_updateState (clock : option string -> string)
    (B1 B2 : list ScoredItem) (S : Cache.State) :
  Cache.updateState clock B1 = Cache.Normal S ->
  Cache.getNewItems B2 S
  = Cache.mkDiff
      (filter (fun scored => id (item scored) ∉ (fun seen => id (item seen)) <$> B1) B2)
      false.
Proof.
  intros HS. destruct (updateState_lastRun clock B1 S HS) as [_ Hinit].
  rewrite (getNewItems_initialized _ _ Hinit). f_equal. unfold Spec.diff.
  apply list_filter_iff. intros x.
  assert (Hseen : id (item x) ∈ Spec.seenUnion S
                  ↔ id (item x) ∈ (fun seen => id (item seen)) <$> B1);
    [|by rewrite Hseen].
  rewrite elem_of_seenUnion. split.
  - intros (k & st & ids & Hk & Hids & Hin).
    rewrite (updateState_lookup clock B1 S HS k) in Hk.
    destruct (fromSource k B1) as [|y items] eqn:E; [done |].
    injection Hk as <-.
    change (Some ((fun seen => id (item seen)) <$> (y :: items)) = Some ids) in Hids.
    apply (inj Some) in Hids. subst ids. apply list_elem_of_fmap in Hin as (z & -> & Hz).
    apply list_elem_of_fmap. exists z. split; [done |].
    rewrite <- E in Hz. unfold fromSource in Hz.
    by apply list_elem_of_filter in Hz as [_ Hz].
  - intros (z & Hid & Hz)%list_elem_of_fmap.
    pose proof (updateState_lookup clock B1 S HS (source (item z))) as Hk.
    assert (Hin : z ∈ fromSource (source (item z)) B1)
      by (by apply list_elem_of_filter).
    destruct (fromSource (source (item z)) B1) as [|y items] eqn:E;
      [by apply elem_of_nil in Hin |].
    eexists _, _, _. split_and!; [exact Hk | reflexivity |].
    rewrite Hid. apply list_elem_of_fmap. by exists z.
Qed.

(** Two scored items of the same source, and one of another source that
    repeats the id of the first. *)
Definition scoredAs (key from : string) : ScoredItem :=
  mkScoredItem (mkItem key "Release" "https://example.org/r" "notes" 0%Z from
                  None false)
    low 1%Z ["default from source"] "app" "Example".

Definition fixedClock (which : option string) : string := "2024-01-01T00:00:00.000Z".

Definition firstBatch : list ScoredItem := [scoredAs "a" "one"; scoredAs "b" "one"].

Definition firstSnapshot : Cache.State :=
  match Cache.updateState fixedClock firstBatch with
  | Cache.Normal state => state
  | Cache.Throw _ => Cache.mkState None false ∅
  end.

Lemma getNewItems_after_updateState_witness :
  Cache.getNewItems [scoredAs "a" "two"; scoredAs "c" "one"] firstSnapshot
  = Cache.mkDiff
      (filter (fun scored => id (item scored)
                             ∉ (fun seen => id (item seen)) <$> firstBatch)
         [scoredAs "a" "two"; scoredAs "c" "one"])
      false.
Proof.
  apply (getNewItems_after_updateState fixedClock). vm_compute. reflexivity.
Defined.

(** X16.  The snapshot of a batch has an entry exactly for the sources that
    occur in the batch.  The entry of a source counts the items of that
    source, lists their ids in the order of the batch, and keeps as latest
    item the first item of the source in the batch. *)
Theorem updateState_snapshot (clock : option string -> string)
    (B : list ScoredItem) (S : Cache.State) (k : string) :
  Cache.updateState clock B = Cache.Normal S ->
  let items := filter (fun scored => source (item scored) = k) B in
  (Cache.sources S !! k = None ↔ k ∉ (fun scored => source (item scored)) <$> B)
  ∧ ∀ entry, Cache.sources S !! k = Some entry ->
      Cache.lastUpdated entry = clock (Some k)
      ∧ Cache.itemCount entry = length items
      ∧ 0 < Cache.itemCount entry
      ∧ Cache.seenIds entry = Some ((fun scored => id (item scored)) <$> items)
      ∧ Cache.latestItem entry
        = (fun first => Cache.mkLatestItem (id (item first)) (title (item first))
                          (publishedAt (item first))) <$> head items.
Proof.
  intros HS. cbn zeta. fold (fromSource k B).
  rewrite (updateState_lookup clock B S HS k).
  pose proof (fromSource_nonempty k B) as Hne.
  destruct (fromSource k B) as [|y items] eqn:E.
  - split; [|done]. split; [|done]. intros _ Hin. by apply Hne in Hin.
  - split.
    + split; [done |]. intros Hnot. exfalso. by apply Hnot, Hne.
    + intros entry [= <-]. cbn. split_and!; try done. lia.
Qed.

Lemma updateState_snapshot_witness :
  Cache.sources firstSnapshot !! "two" = None
  ∧ Cache.itemCount <$> Cache.sources firstSnapshot !! "one" = Some 2.
Proof.
  destruct (updateState_snapshot fixedClock firstBatch firstSnapshot "two")
    as [[_ Hnone] _]; [vm_compute; reflexivity |].
  split.
  - apply Hnone. vm_compute. intros Hin.
    repeat (apply elem_of_cons in Hin as [Hin|Hin]; [discriminate |]).
    by apply elem_of_nil in Hin.
  - vm_compute. reflexivity.
Defined.

(** ** The report on the cache *)

(** X17.  The report on the snapshot of a batch counts as many sources as
    the batch has distinct source ids and as many items as the batch has
    items; it lists one summary for each source, and carries the time of
    the run. *)
Theorem getCacheStats_after_updateState (clock : option string -> string)
    (B : list ScoredItem) (S : Cache.State) :
  Cache.updateState clock B = Cache.Normal S ->
  ∃ summaries,
    Report.getCacheStats S
    = Report.Initialized (Some (clock None))
        (size (list_to_set ((fun scored => source (item scored)) <$> B) : gset string))
        (length B) summaries
    ∧ length summaries
      = size (list_to_set ((fun scored => source (item scored)) <$> B) : gset string)
    ∧ Forall (fun s =>
                Report.summaryItemCount s
                = length (filter (fun scored => source (item scored)
                                                = Report.summaryId s) B)
                ∧ 0 < Report.summaryItemCount s)
        summaries.
Proof.
  intros HS. destruct (updateState_lastRun clock B S HS) as [Hrun Hinit].
  pose proof (updateState_lookup clock B S HS) as Hlookup.
  assert (Hsize : length (map_to_list (Cache.sources S))
                  = size (list_to_set ((fun scored => source (item scored)) <$> B)
                          : gset string)).
  { rewrite length_map_to_list, <- (size_dom (D := gset string)). f_equal.
    apply set_eq. intros k. rewrite elem_of_dom, elem_of_list_to_set.
    rewrite <- fromSource_nonempty, Hlookup.
    destruct (fromSource k B); split; try done; by intros []. }
  unfold Report.getCacheStats. rewrite Hinit, Hrun. cbn [negb].
  eexists. split; [|split].
  - f_equal.
    + unfold Report.Object_keys. by rewrite length_fmap.
    + rewrite foldl_sum.
      apply (grouped_total (fun k items => Cache.sourceEntry (clock (Some k)) items));
        done.
  - unfold Report.Object_entries. by rewrite length_fmap.
  - apply Forall_fmap, Forall_forall. intros [k st] Hk.
    apply elem_of_map_to_list in Hk. rewrite Hlookup in Hk.
    cbn [compose Report.summaryItemCount Report.summaryId fst snd].
    fold (fromSource k B).
    destruct (fromSource k B) as [|y items]; [done |].
    injection Hk as <-. cbn. split; [done | lia].
Qed.

Lemma getCacheStats_after_updateState_witness :
  ∃ summaries,
    Report.getCacheStats firstSnapshot
    = Report.Initialized (Some "2024-01-01T00:00:00.000Z")
        (size (list_to_set ((fun scored => source (item scored)) <$> firstBatch)
              : gset string))
        2 summaries
    ∧ length summaries
      = size (list_to_set ((fun scored => source (item scored)) <$> firstBatch)
              : gset string)
    ∧ Forall (fun s =>
                Report.summaryItemCount s
                = length (filter (fun scored => source (item scored)
                                                = Report.summaryId s) firstBatch)
                ∧ 0 < Report.summaryItemCount s)
        summaries.
Proof.
  apply (getCacheStats_after_updateState fixedClock firstBatch firstSnapshot).
  vm_compute. reflexivity.
Defined.

Section RunFacts.
Import Ranking.


End RunFacts.

(** ** Scoring and diff together *)


Section OptionFacts.
Import JsString Fetchers.

Variable resolveURL : string -> string -> option string.
Variable network : nat -> string -> Reply.

(** Two sets of options that are read alike. *)
Definition readAlike (o1 o2 : Options) : Prop :=
  timeout o1 = timeout o2
  ∧ orElseN (maxSize o1) (5 * 1024 * 1024) = orElseN (maxSize o2) (5 * 1024 * 1024)
  ∧ orElse (maxRedirects o1) 5 = orElse (maxRedirects o2) 5
  ∧ orElse (redirectCount o1) 0 = orElse (redirectCount o2) 0.

Lemma fetchUrlFrom_readAlike (fuel : nat) :
  ∀ (n : nat) (url : string) (o1 o2 : Options),
    readAlike o1 o2 ->
    fetchUrlFrom resolveURL network fuel n url o1
    = fetchUrlFrom resolveURL network fuel n url o2.
Proof.
  induction fuel as [|fuel IH]; intros n url o1 o2 (Ht & Hsize & Hmax & Hcount);
    [done |].
  cbn [fetchUrlFrom]. rewrite Hsize, Hmax, Hcount.
  destruct (network n url) as [st loc ch| |]; [|done..].
  destruct (isRedirect st); [|done].
  destruct loc as [loc|]; [|done]. destruct (truthy loc); [|done].
  destruct (_ <=? _); [done |].
  destruct (if startsWith "http" loc then Some loc else resolveURL loc url);
    [|done].
  apply IH. by split_and!.
Qed.

Lemma fetchUrl_readAlike (url : string) (o1 o2 : Options) :
  readAlike o1 o2 ->
  fetchUrl resolveURL network url o1 = fetchUrl resolveURL network url o2.
Proof.
  intros Halike. unfold fetchUrl.
  pose proof Halike as (_ & _ & Hmax & Hcount). rewrite Hmax, Hcount.
  by apply fetchUrlFrom_readAlike.
Qed.

End OptionFacts.

(** ** The options of a fetch *)

(** X19.  An option of [fetchUrl] given as 0 is read as absent, and an
    absent option as its default: with [maxSize], [maxRedirects] and
    [redirectCount] all 0 the fetch runs as with no option, that is with a
    cap of 5 MiB and five redirects; redirects cannot be switched off with
    [maxRedirects: 0]. *)
Theorem fetchUrl_zero_options
    (resolveURL : string -> string -> option string)
    (network : nat -> string -> Fetchers.Reply)
    (url : string) (timeout : option N) :
  Fetchers.fetchUrl resolveURL network url
    (Fetchers.mkOptions timeout (Some 0%N) (Some 0) (Some 0))
  = Fetchers.fetchUrl resolveURL network url
      (Fetchers.mkOptions timeout None None None)
  ∧ Fetchers.fetchUrl resolveURL network url
      (Fetchers.mkOptions timeout None None None)
    = Fetchers.fetchUrl resolveURL network url
        (Fetchers.mkOptions timeout (Some (5 * 1024 * 1024)%N) (Some 5) None).
Proof.
  split; apply fetchUrl_readAlike; by split_and!.
Qed.

Section DecodeFacts.
Import JsString RegExp Fetchers.

(** A pattern without assertions: only quantified characters. *)
Definition plain (ns : list node) : Prop :=
  Forall (fun n => match n with NRep _ _ _ => True | _ => False end) ns.

Lemma greedy_prev (ic : bool) (cs : charset)
    (k : option ascii -> string -> option (option string * string)) :
  (∀ p p' s, k p s = k p' s) ->
  ∀ s p p', greedy ic cs k p s = greedy ic cs k p' s.
Proof.
  intros Hk s. induction s as [|c s IH]; intros p p'; cbn [greedy]; [apply Hk |].
  by rewrite (Hk p p').
Qed.

Lemma lazy_prev (ic : bool) (cs : charset)
    (k : option ascii -> string -> option (option string * string)) :
  (∀ p p' s, k p s = k p' s) ->
  ∀ s p p', lazy ic cs k p s = lazy ic cs k p' s.
Proof.
  intros Hk s. induction s as [|c s IH]; intros p p'; cbn [lazy];
    by rewrite (Hk p p').
Qed.

Lemma rep_prev (ic : bool) (cs : charset)
    (k : option ascii -> string -> option (option string * string)) (q : quant) :
  (∀ p p' s, k p s = k p' s) ->
  ∀ s p p', rep ic cs k q p s = rep ic cs k q p' s.
Proof.
  intros Hk s p p'. destruct q; cbn [rep].
  - done.
  - destruct s as [|c s]; by rewrite (Hk p p').
  - by apply greedy_prev.
  - done.
  - by apply lazy_prev.
Qed.

Lemma matchNodes_prev (ic : bool) (ns : list node) :
  plain ns ->
  ∀ cap s p p', matchNodes ic ns cap p s = matchNodes ic ns cap p' s.
Proof.
  induction 1 as [|n ns Hn Hns IH]; intros cap s p p'; [done |].
  destruct n as [| |capture q cs]; try done. cbn [matchNodes].
  apply rep_prev. intros. apply IH.
Qed.

(** Two matches that differ at most in the character before the rest. *)
Definition sameMatch (a b : option found) : Prop :=
  match a, b with
  | Some m, Some m' =>
      skipped m = skipped m' ∧ matched m = matched m' ∧ rest m = rest m'
  | None, None => True
  | _, _ => False
  end.

Lemma search_prev (ic : bool) (ns : list node) :
  plain ns ->
  ∀ s p p', sameMatch (search ic ns p s) (search ic ns p' s).
Proof.
  intros Hns s. induction s as [|c s IH]; intros p p'.
  - cbn [search]. rewrite (matchNodes_prev ic ns Hns None EmptyString p p').
    by destruct (matchNodes ic ns None p' EmptyString) as [[cap r]|].
  - rewrite !search_String.
    rewrite (matchNodes_prev ic ns Hns None (String c s) p p').
    destruct (matchNodes ic ns None p' (String c s)) as [[cap r]|]; [done |].
    specialize (IH (Some c) (Some c)).
    destruct (search ic ns (Some c) s) as [m|]; [|done].
    by cbn.
Qed.

Lemma replaceFrom_prev (re : regex) (f : string -> string) :
  plain (nodes re) ->
  ∀ fuel s p p', replaceFrom fuel re f p s = replaceFrom fuel re f p' s.
Proof.
  intros Hre fuel. induction fuel as [|fuel IH]; intros s p p'; [done |].
  cbn [replaceFrom].
  pose proof (search_prev (ignoreCase re) (nodes re) Hre s p p') as Hsame.
  destruct (search (ignoreCase re) (nodes re) p s) as [m|],
    (search (ignoreCase re) (nodes re) p' s) as [m'|]; try done.
  destruct Hsame as (-> & -> & ->). do 2 f_equal.
  destruct (truthy (matched m')); [apply IH | done].
Qed.

Lemma firstChars_append (a s : string) :
  firstChars (String.length a) (a +:+ s) = a.
Proof. induction a as [|c a IH]; simpl; [by destruct s | by rewrite IH]. Qed.

Lemma consumed_append (a s : string) : consumed (a +:+ s) s = a.
Proof.
  unfold consumed. rewrite length_append.
  replace (String.length a + String.length s - String.length s)
    with (String.length a) by lia.
  apply firstChars_append.
Qed.

Lemma entityRegex_plain : plain (nodes entityRegex).
Proof. repeat constructor. Qed.

(** At an entity of the table the pattern matches the entity and no more. *)
Lemma matchNodes_entity :
  Forall (fun entity =>
            ∀ prev s,
              matchNodes true (nodes entityRegex) None prev (fst entity +:+ s)
              = Some (None, s))
    entities.
Proof. repeat constructor; intros prev s; vm_compute; reflexivity. Qed.

End DecodeFacts.

(** X20.  [decodeHTMLEntities] decodes in a single pass: an entity of its
    table at the head of a text is replaced by its character and the
    decoding goes on behind it, so the character it writes is never read
    again; a text encoded twice is decoded once. *)
Theorem decodeHTMLEntities_single_pass :
  Forall (fun entity =>
            ∀ s, Fetchers.decodeHTMLEntities (fst entity +:+ s)
                 = snd entity +:+ Fetchers.decodeHTMLEntities s)
    Fetchers.entities.
Proof.
  pose proof matchNodes_entity as Hmatch.
  rewrite Forall_forall in *. intros [k v] Hkv s. cbn [fst snd].
  specialize (Hmatch _ Hkv). cbn [fst] in Hmatch.
  assert (Hv : decodeOne k = v /\ k ≠ EmptyString).
  { clear -Hkv. unfold Fetchers.entities in Hkv.
    repeat (apply elem_of_cons in Hkv as [[= -> ->]|Hkv]; [by split |]).
    by apply elem_of_nil in Hkv. }
  destruct Hv as [Hv Hk].
  unfold Fetchers.decodeHTMLEntities, Fetchers.replace.
  remember (Fetchers.replaceFrom (S (String.length s)) Fetchers.entityRegex
              (fun m => default m (Fetchers.lookupEntity Fetchers.entities m))
              None s) as decoded eqn:Hdecoded.
  cbn [Fetchers.replaceFrom].
  assert (Hsearch : RegExp.search (RegExp.ignoreCase Fetchers.entityRegex)
                      (RegExp.nodes Fetchers.entityRegex) None (k +:+ s)
                    = Some (RegExp.mkFound EmptyString k None s
                              (JsString.lastFrom None k))).
  { destruct (k +:+ s) as [|c r] eqn:E.
    - destruct k; [done | discriminate].
    - rewrite search_String, <- E.
      change (RegExp.ignoreCase Fetchers.entityRegex) with true.
      by rewrite Hmatch, consumed_append. }
  rewrite Hsearch. cbn [RegExp.skipped RegExp.matched RegExp.rest RegExp.before].
  fold (decodeOne k). rewrite Hv.
  assert (JsString.truthy k = true) as -> by (by destruct k).
  change (EmptyString +:+ v +:+ ?x) with (v +:+ x). f_equal.
  rewrite (replaceFrom_prev _ _ entityRegex_plain (String.length (k +:+ s)) s
             (JsString.lastFrom None k) None).
  assert (0 < String.length k) by (destruct k; [done | simpl; lia]).
  subst decoded. apply replaceFrom_fuel; rewrite ?length_append; lia.
Qed.

(** ** A redirect that cannot be resolved *)

(** X21.  A redirect to a relative address that [new URL] rejects is not a
    failure [fetchRSS] contains: the exception is raised in the response
    callback, so the promise of [fetchUrl] is neither resolved nor rejected,
    the [catch] of [fetchRSS] is not reached and no list is returned. *)
Theorem fetchRSS_unresolved_redirect
    (resolveURL : string -> string -> option string)
    (network : nat -> string -> Fetchers.Reply)
    (Date_parse : string -> Z) (Date_now : Z) (src : Source)
    (statusCode : Z) (location : string) (chunks : list string) :
  network 0 (sourceUrl src) = Fetchers.Response statusCode (Some location) chunks ->
  Fetchers.isRedirect statusCode = true ->
  location ≠ EmptyString ->
  JsString.startsWith "http" location = false ->
  resolveURL location (sourceUrl src) = None ->
  Fetchers.fetchUrl resolveURL network (sourceUrl src)
    (Fetchers.mkOptions None None None None)
  = Some Fetchers.Uncaught
  ∧ Feeds.fetchRSS resolveURL network Date_parse Date_now src = None.
Proof.
  intros Hnet Hred Hloc Hhttp Hurl.
  assert (Hfetch : Fetchers.fetchUrl resolveURL network (sourceUrl src)
                     (Fetchers.mkOptions None None None None)
                   = Some Fetchers.Uncaught).
  { unfold Fetchers.fetchUrl. cbn [Fetchers.fetchUrlFrom Fetchers.orElse
      Fetchers.maxRedirects Fetchers.redirectCount Nat.sub].
    rewrite Hnet, Hred. destruct location as [|c location]; [done |].
    cbn [JsString.truthy]. rewrite Hhttp, Hurl. reflexivity. }
  split; [done |]. unfold Feeds.fetchRSS. by rewrite Hfetch.
Qed.

(** A server that redirects every request to the address [//]. *)
Definition redirectsNowhere (n : nat) (url : string) : Fetchers.Reply :=
  Fetchers.Response 301 (Some "//") [].

Lemma fetchRSS_unresolved_redirect_witness :
  Fetchers.fetchUrl noResolution redirectsNowhere (sourceUrl sampleSource)
    (Fetchers.mkOptions None None None None)
  = Some Fetchers.Uncaught
  ∧ Feeds.fetchRSS noResolution redirectsNowhere (fun _ => 0%Z) 0%Z sampleSource
    = None.
Proof.
  apply (fetchRSS_unresolved_redirect noResolution redirectsNowhere (fun _ => 0%Z)
           0%Z sampleSource 301 "//" []); by vm_compute.
Defined.

(** ** Scoring and letter case *)

(** X22.  [scoreItem] reads the title and the description up to letter
    case, and of the other fields of the item only the version and the
    pre-release flag: two items that agree on these get the same scoring
    for every source. *)
Theorem scoreItem_ignores_case (a b : Item) (source : Source) :
  JsString.toLowerCase (title a) = JsString.toLowerCase (title b) ->
  JsString.toLowerCase (description a) = JsString.toLowerCase (description b) ->
  version a = version b ->
  prerelease a = prerelease b ->
  Scorer.scoreItem a source = Scorer.scoreItem b source.
Proof.
  intros Htitle Hdescription Hversion Hpre.
  assert (Htext : Scorer.itemText a = Scorer.itemText b).
  { unfold Scorer.itemText, JsString.toLowerCase in *.
    by rewrite !mapChars_append, Htitle, Hdescription. }
  rewrite !scoreItem_scoringOf. unfold Ranking.scoringOf, Spec.matched.
  rewrite Htext. f_equal.
  destruct (Scorer.baseSeverity _ source) as [sev rs].
  unfold Scorer.prereleaseAdjust, Scorer.versionAdjust, Scorer.isMajorVersion.
  by rewrite Hversion, Hpre.
Qed.

Definition shouting : Item :=
  mkItem "1" "SECURITY Vulnerability in 2.0" "https://example.org/a" "Upgrade NOW"
    0%Z "one" None false.

Definition whispering : Item :=
  mkItem "2" "security vulnerability in 2.0" "https://example.org/b" "upgrade now"
    7%Z "two" None false.

Lemma scoreItem_ignores_case_witness :
  Scorer.scoreItem shouting sampleSource = Scorer.scoreItem whispering sampleSource.
Proof.
  apply scoreItem_ignores_case; by vm_compute.
Defined.
